(** * prethread: a pre-allocated pool of POSIX threads, mutexes and
      condition variables (prethd.c / prethd.h)

    The pool lives on the C heap and every operation goes through the
    pthread library.  The development models

    - the heap as a finite map from block identifiers to typed cells,
    - the platform (malloc and the pthread calls) as a record of oracles
      that answer each call from the history of calls made so far,
    - every library call as an event appended to a trace, and
    - the functions of prethd.c as computations in a state monad whose
      only failure is a memory fault (use of an absent, dangling or
      out-of-range address).

    [size_t] is an unsigned 64-bit integer, [int] a signed 32-bit one. *)

From Stdlib Require Import ZArith NArith Lia.
From stdpp Require Import base option list gmap.

Local Open Scope N_scope.

(** ** Machine integers *)

Definition SIZE_MOD : N := 2 ^ 64.
Definition wrap_size (n : N) : N := n mod SIZE_MOD.

Definition INT_MAX : Z := 2147483647.
Definition wrap_int (z : Z) : Z := ((z + 2 ^ 31) mod 2 ^ 32 - 2 ^ 31)%Z.

(** ** Heap cells *)

Abbreviation block := positive (only parsing).
Abbreviation ptr := (option positive) (only parsing).
Abbreviation NULL := (@None positive) (only parsing).

(** A thread slot holds the handle written by a successful
    [pthread_create]; [None] is the content malloc left there. *)
Abbreviation slot := (option N) (only parsing).

(** struct pre_threads_t *)
Record pre_threads_t := mk_pool {
  muts : ptr;
  conds : ptr;
  threads : ptr;
  len : N;
  mlen : N;
  clen : N
}.

Definition set_muts (v : ptr) (s : pre_threads_t) :=
  mk_pool v (conds s) (threads s) (len s) (mlen s) (clen s).
Definition set_conds (v : ptr) (s : pre_threads_t) :=
  mk_pool (muts s) v (threads s) (len s) (mlen s) (clen s).
Definition set_threads (v : ptr) (s : pre_threads_t) :=
  mk_pool (muts s) (conds s) v (len s) (mlen s) (clen s).
Definition set_len (v : N) (s : pre_threads_t) :=
  mk_pool (muts s) (conds s) (threads s) v (mlen s) (clen s).
Definition set_mlen (v : N) (s : pre_threads_t) :=
  mk_pool (muts s) (conds s) (threads s) (len s) v (clen s).
Definition set_clen (v : N) (s : pre_threads_t) :=
  mk_pool (muts s) (conds s) (threads s) (len s) (mlen s) v.

(** What malloc hands back for a [prethd_t]: nothing is set yet. *)
Definition blank_pool : pre_threads_t := mk_pool None None None 0 0 0.

(** The two kinds of synchronisation primitive. *)
Inductive kind := KMutex | KCond.

Global Instance kind_eq_dec : EqDecision kind.
Proof. solve_decision. Defined.

(** A block is a pool object, or an array of primitives of one kind (one
    flag per element: has it been initialised and not yet destroyed), or an
    array of thread slots. *)
Inductive cell :=
| Pool (s : pre_threads_t)
| Prims (k : kind) (fs : list bool)
| Threads (ts : list (option N)).

Abbreviation Mutexes := (Prims KMutex).
Abbreviation Conds := (Prims KCond).

(** ** Events and worlds *)

Inductive event :=
| EvMalloc (size : N) (r : ptr)
| EvFree (b : block)
| EvMutexInit (b : block) (i : N)
| EvMutexDestroy (b : block) (i : N)
| EvCondInit (b : block) (i : N)
| EvCondDestroy (b : block) (i : N)
| EvCreate (b : block) (i : N) (rc : Z)
| EvJoin (h : slot) (rc : Z)
| EvLock (b : block) (i : N) (rc : Z)
| EvUnlock (b : block) (i : N) (rc : Z)
| EvWait (cb : block) (c : N) (mb : block) (m : N) (rc : Z)
| EvSignal (b : block) (i : N) (rc : Z)
| EvBroadcast (b : block) (i : N) (rc : Z).

Record world := mk_world {
  heap : gmap positive cell;
  next_block : positive;
  next_tid : N;
  trace : list event
}.

(** The platform: element sizes and the answer of each library call, given
    the calls made so far.  The pthread calls answer with an [int]. *)
Record platform := mk_platform {
  sizeof_pool : positive;
  sizeof_thread : positive;
  sizeof_mutex : positive;
  sizeof_cond : positive;
  malloc_ok : list event → N → bool;
  create_rc : list event → block → N → Z;
  join_rc : list event → slot → Z;
  lock_rc : list event → block → N → Z;
  unlock_rc : list event → block → N → Z;
  wait_rc : list event → block → N → block → N → Z;
  signal_rc : list event → block → N → Z;
  broadcast_rc : list event → block → N → Z
}.

(** ** The monad of heap computations *)

Inductive outcome (A : Type) :=
| Ok (a : A) (w : world)
| Fault.
Arguments Ok {A} a w.
Arguments Fault {A}.

Definition M (A : Type) : Type := world → outcome A.

Global Instance M_ret : MRet M := λ A a w, Ok a w.
Global Instance M_bind : MBind M := λ A B f c w,
  match c w with
  | Ok a w' => f a w'
  | Fault => Fault
  end.

Definition fault {A} : M A := λ _, Fault.

(** The world after one more logged call. *)
Definition log (e : event) (w : world) : world :=
  mk_world (heap w) (next_block w) (next_tid w) (trace w ++ [e]).

Definition emit (e : event) : M unit := λ w, Ok tt (log e w).

(** The world a computation leaves behind ([w] itself if it faults). *)
Definition after {A} (c : M A) (w : world) : world :=
  match c w with
  | Ok _ w' => w'
  | Fault => w
  end.

Definition load (b : block) : M cell := λ w,
  match heap w !! b with
  | Some c => Ok c w
  | None => Fault
  end.

Definition store (b : block) (c : cell) : M unit := λ w,
  match heap w !! b with
  | Some _ => Ok tt (mk_world (<[b:=c]> (heap w)) (next_block w) (next_tid w) (trace w))
  | None => Fault
  end.

(** Reading and writing [th->field]. *)
Definition load_pool (b : block) : M pre_threads_t :=
  c ← load b;
  match c with
  | Pool s => mret s
  | _ => fault
  end.

Definition update_pool (b : block) (f : pre_threads_t → pre_threads_t) : M unit :=
  s ← load_pool b; store b (Pool (f s)).

(** Repeat [body i] for [i], [i+1], ..., [n] times: the shape of
    [for (size_t i = 0; i < n; i++) body(i);]. *)
Fixpoint for_loop (n : nat) (i : N) (body : N → M unit) : M unit :=
  match n with
  | O => mret tt
  | S n' => body i;; for_loop n' (i + 1) body
  end.

Section Prethd.
Context (P : platform).

(** ** The C library *)

(** [malloc(size)]: the platform decides; a granted request yields a block
    never used before, holding [c]. *)
Definition malloc (size : N) (c : cell) : M ptr := λ w,
  if malloc_ok P (trace w) size then
    let b := next_block w in
    Ok (Some b) (mk_world (<[b:=c]> (heap w)) (Pos.succ b) (next_tid w)
                          (trace w ++ [EvMalloc size (Some b)]))
  else
    Ok NULL (mk_world (heap w) (next_block w) (next_tid w)
                      (trace w ++ [EvMalloc size NULL])).

(** [free(p)]: nothing for a null pointer, a fault for a block that is not
    live. *)
Definition free (p : ptr) : M unit :=
  match p with
  | None => mret tt
  | Some b => λ w,
      match heap w !! b with
      | Some _ => Ok tt (mk_world (delete b (heap w)) (next_block w) (next_tid w)
                                  (trace w ++ [EvFree b]))
      | None => Fault
      end
  end.

(** Number of elements of size [sz] in a block of [size] bytes. *)
Definition elems (size : N) (sz : positive) : nat := N.to_nat (size / N.pos sz).

(** The flag of element [i] of an array of [k]-primitives at [a]. *)
Definition load_prim (k : kind) (a : ptr) (i : N) : M (block * bool) :=
  match a with
  | None => fault
  | Some b =>
      c ← load b;
      match c with
      | Prims k' fs =>
          if decide (k' = k) then
            match fs !! N.to_nat i with
            | Some f => mret (b, f)
            | None => fault
            end
          else fault
      | _ => fault
      end
  end.

Definition store_prim (b : block) (i : N) (f : bool) : M unit :=
  c ← load b;
  match c with
  | Prims k fs => store b (Prims k (<[N.to_nat i:=f]> fs))
  | _ => fault
  end.

Definition ev_init (k : kind) : block → N → event :=
  match k with KMutex => EvMutexInit | KCond => EvCondInit end.

Definition ev_destroy (k : kind) : block → N → event :=
  match k with KMutex => EvMutexDestroy | KCond => EvCondDestroy end.

(** Initialising element [i] of the array at [a]. *)
Definition prim_init (k : kind) (a : ptr) (i : N) : M unit :=
  '(b, _) ← load_prim k a i;
  store_prim b i true;;
  emit (ev_init k b i).

(** Destroying it: the element must be an initialised one. *)
Definition prim_destroy (k : kind) (a : ptr) (i : N) : M unit :=
  '(b, f) ← load_prim k a i;
  if f : bool then store_prim b i false;; emit (ev_destroy k b i) else fault.

(** [pthread_mutex_init(a + i, NULL)]; the source ignores its result. *)
Definition pthread_mutex_init : ptr → N → M unit := prim_init KMutex.

(** [pthread_mutex_destroy(a + i)] *)
Definition pthread_mutex_destroy : ptr → N → M unit := prim_destroy KMutex.

(** [pthread_cond_init(a + i, NULL)] *)
Definition pthread_cond_init : ptr → N → M unit := prim_init KCond.

(** [pthread_cond_destroy(a + i)] *)
Definition pthread_cond_destroy : ptr → N → M unit := prim_destroy KCond.

(** A call on an initialised primitive: the platform answers, the call is
    logged. *)
Definition answer (rc : list event → Z) (ev : Z → event) : M Z := λ w,
  let r := rc (trace w) in
  Ok r (log (ev r) w).

Definition pthread_mutex_lock (a : ptr) (i : N) : M Z :=
  '(b, f) ← load_prim KMutex a i;
  if f : bool then answer (λ tr, lock_rc P tr b i) (EvLock b i) else fault.

Definition pthread_mutex_unlock (a : ptr) (i : N) : M Z :=
  '(b, f) ← load_prim KMutex a i;
  if f : bool then answer (λ tr, unlock_rc P tr b i) (EvUnlock b i) else fault.

Definition pthread_cond_wait (ca : ptr) (c : N) (ma : ptr) (m : N) : M Z :=
  '(cb, cf) ← load_prim KCond ca c;
  '(mb, mf) ← load_prim KMutex ma m;
  if (cf && mf)%bool
  then answer (λ tr, wait_rc P tr cb c mb m) (EvWait cb c mb m)
  else fault.

Definition pthread_cond_signal (a : ptr) (i : N) : M Z :=
  '(b, f) ← load_prim KCond a i;
  if f : bool then answer (λ tr, signal_rc P tr b i) (EvSignal b i) else fault.

Definition pthread_cond_broadcast (a : ptr) (i : N) : M Z :=
  '(b, f) ← load_prim KCond a i;
  if f : bool then answer (λ tr, broadcast_rc P tr b i) (EvBroadcast b i) else fault.

(** [th->threads[i]] *)
Definition load_thread (a : ptr) (i : N) : M slot :=
  match a with
  | None => fault
  | Some b =>
      c ← load b;
      match c with
      | Threads ts =>
          match ts !! N.to_nat i with
          | Some h => mret h
          | None => fault
          end
      | _ => fault
      end
  end.

(** [pthread_create(&a[i], NULL, func, arg)]: on success the new handle is
    written to the slot, on failure the slot keeps its content. *)
Definition pthread_create (a : ptr) (i : N) : M Z :=
  match a with
  | None => fault
  | Some b =>
      c ← load b;
      match c with
      | Threads ts =>
          if decide (N.to_nat i < length ts)%nat then λ w,
            let rc := create_rc P (trace w) b i in
            if (rc =? 0)%Z then
              Ok rc (mk_world (<[b:=Threads (<[N.to_nat i:=Some (next_tid w)]> ts)]> (heap w))
                              (next_block w) (next_tid w + 1)
                              (trace w ++ [EvCreate b i rc]))
            else
              Ok rc (mk_world (heap w) (next_block w) (next_tid w)
                              (trace w ++ [EvCreate b i rc]))
          else fault
      | _ => fault
      end
  end.

(** [pthread_join(h, NULL)].  The call receives the slot's content by value;
    for a slot no thread was ever started in, the platform answers as it
    does for any other handle. *)
Definition pthread_join (h : slot) : M Z :=
  answer (λ tr, join_rc P tr h) (EvJoin h).


(** ** prethd.c *)

(** [static pthread_mutex_t *init_muts(size_t n)] *)
Definition init_muts (n : N) : M ptr :=
  if n =? 0 then mret NULL else
  let size := wrap_size (n * N.pos (sizeof_mutex P)) in
  mut ← malloc size (Mutexes (replicate (elems size (sizeof_mutex P)) false));
  match mut with
  | Some _ => for_loop (N.to_nat n) 0 (pthread_mutex_init mut);; mret mut
  | None => mret mut
  end.

(** [static void des_muts(pthread_mutex_t *muts, size_t n)] *)
Definition des_muts (muts : ptr) (n : N) : M unit :=
  match muts with
  | Some _ =>
      if 0 <? n then
        for_loop (N.to_nat n) 0 (pthread_mutex_destroy muts);;
        free muts
      else mret tt
  | None => mret tt
  end.

(** [static pthread_cond_t *init_conds(size_t n)] *)
Definition init_conds (n : N) : M ptr :=
  if n =? 0 then mret NULL else
  let size := wrap_size (n * N.pos (sizeof_cond P)) in
  cond ← malloc size (Conds (replicate (elems size (sizeof_cond P)) false));
  match cond with
  | Some _ => for_loop (N.to_nat n) 0 (pthread_cond_init cond);; mret cond
  | None => mret cond
  end.

(** [static void des_conds(pthread_cond_t *conds, size_t n)] *)
Definition des_conds (conds : ptr) (n : N) : M unit :=
  match conds with
  | Some _ =>
      if 0 <? n then
        for_loop (N.to_nat n) 0 (pthread_cond_destroy conds);;
        free conds
      else mret tt
  | None => mret tt
  end.

(** [prethd_t *prethd_new(size_t th, size_t mut, size_t cond)] *)
Definition prethd_new (th mut cond : N) : M ptr :=
  if th =? 0 then mret NULL else
  ret ← malloc (N.pos (sizeof_pool P)) (Pool blank_pool);
  match ret with
  | Some b =>
      update_pool b (set_len th);;
      update_pool b (set_mlen mut);;
      update_pool b (set_clen cond);;
      m ← init_muts mut;
      update_pool b (set_muts m);;
      c ← init_conds cond;
      update_pool b (set_conds c);;
      let size := wrap_size (th * N.pos (sizeof_thread P)) in
      t ← malloc size (Threads (replicate (elems size (sizeof_thread P)) None));
      update_pool b (set_threads t);;
      s ← load_pool b;
      match threads s with
      | None =>
          des_muts (muts s) mut;;
          s ← load_pool b;
          des_conds (conds s) cond;;
          free ret;;
          mret NULL
      | Some _ => mret ret
      end
  | None => mret ret
  end.

(** The loop of [prethd_all]: [n] slots left, [i] the next index, [ret] the
    count so far; a failed [pthread_create] breaks out.  The source reads
    [th->len] and [th->threads] at every turn; nothing in the loop writes
    the pool object, so they are read once.  Neither counter can wrap: both
    stay below [th->len]. *)
Fixpoint all_loop (a : ptr) (n : nat) (i ret : N) : M N :=
  match n with
  | O => mret ret
  | S n' =>
      rc ← pthread_create a i;
      if (rc =? 0)%Z then all_loop a n' (i + 1) (ret + 1) else mret ret
  end.

(** [size_t prethd_all(prethd_t *th, void *(*func)(void *), void *arg)].
    The work function and its argument are handed to [pthread_create]
    unchanged and play no part in what the pool does. *)
Definition prethd_all (th : ptr) : M N :=
  match th with
  | None => mret 0
  | Some b =>
      s ← load_pool b;
      all_loop (threads s) (N.to_nat (len s)) 0 0
  end.

(** [size_t prethd_size(prethd_t *th)] *)
Definition prethd_size (th : ptr) : M N :=
  match th with
  | None => mret 0
  | Some b => s ← load_pool b; mret (len s)
  end.

(** [size_t prethd_mutex_size(prethd_t *th)] *)
Definition prethd_mutex_size (th : ptr) : M N :=
  match th with
  | None => mret 0
  | Some b => s ← load_pool b; mret (mlen s)
  end.

(** [size_t prethd_cond_size(prethd_t *th)] *)
Definition prethd_cond_size (th : ptr) : M N :=
  match th with
  | None => mret 0
  | Some b => s ← load_pool b; mret (clen s)
  end.

(** The loop of [prethd_join]: [chk += pthread_join(th->threads[i], NULL)]
    on an [int] accumulator, with [th->len] and [th->threads] read once as
    in [all_loop]. *)
Fixpoint join_loop (a : ptr) (n : nat) (i : N) (chk : Z) : M Z :=
  match n with
  | O => mret chk
  | S n' =>
      h ← load_thread a i;
      rc ← pthread_join h;
      join_loop a n' (i + 1) (wrap_int (chk + rc))
  end.

(** [_Bool prethd_join(prethd_t *th)] *)
Definition prethd_join (th : ptr) : M bool :=
  match th with
  | None => mret false
  | Some b =>
      s ← load_pool b;
      chk ← join_loop (threads s) (N.to_nat (len s)) 0 0;
      mret (chk =? 0)%Z
  end.

(** [_Bool prethd_lock(prethd_t *th, size_t i)] *)
Definition prethd_lock (th : ptr) (i : N) : M bool :=
  match th with
  | None => mret false
  | Some b =>
      s ← load_pool b;
      if mlen s <=? i then mret false
      else rc ← pthread_mutex_lock (muts s) i; mret (rc =? 0)%Z
  end.

(** [_Bool prethd_unlock(prethd_t *th, size_t i)] *)
Definition prethd_unlock (th : ptr) (i : N) : M bool :=
  match th with
  | None => mret false
  | Some b =>
      s ← load_pool b;
      if mlen s <=? i then mret false
      else rc ← pthread_mutex_unlock (muts s) i; mret (rc =? 0)%Z
  end.

(** [_Bool prethd_wait(prethd_t *th, size_t c, size_t m)] *)
Definition prethd_wait (th : ptr) (c m : N) : M bool :=
  match th with
  | None => mret false
  | Some b =>
      s ← load_pool b;
      if ((clen s <=? c) || (mlen s <=? m))%bool then mret false
      else rc ← pthread_cond_wait (conds s) c (muts s) m; mret (rc =? 0)%Z
  end.

(** [_Bool prethd_signal(prethd_t *th, size_t i)] *)
Definition prethd_signal (th : ptr) (i : N) : M bool :=
  match th with
  | None => mret false
  | Some b =>
      s ← load_pool b;
      if clen s <=? i then mret false
      else rc ← pthread_cond_signal (conds s) i; mret (rc =? 0)%Z
  end.

(** [_Bool prethd_broad(prethd_t *th, size_t i)] *)
Definition prethd_broad (th : ptr) (i : N) : M bool :=
  match th with
  | None => mret false
  | Some b =>
      s ← load_pool b;
      if clen s <=? i then mret false
      else rc ← pthread_cond_broadcast (conds s) i; mret (rc =? 0)%Z
  end.

(** [void prethd_free(prethd_t *th)] *)
Definition prethd_free (th : ptr) : M unit :=
  match th with
  | Some b =>
      s ← load_pool b;
      des_muts (muts s) (mlen s);;
      s ← load_pool b;
      des_conds (conds s) (clen s);;
      s ← load_pool b;
      free (threads s);;
      free th
  | None => mret tt
  end.

(** [void prethd_join_free(prethd_t *th)].  After a successful join the
    pointer is dereferenced without a null test of its own: [prethd_join]
    answers false for a null pointer. *)
Definition prethd_join_free (th : ptr) : M unit :=
  ok ← prethd_join th;
  if ok : bool then
    match th with
    | Some b =>
        s ← load_pool b;
        des_muts (muts s) (mlen s);;
        s ← load_pool b;
        des_conds (conds s) (clen s);;
        s ← load_pool b;
        free (threads s);;
        free th
    | None => fault
    end
  else mret tt.

End Prethd.

(** ** Vocabulary of the specification *)

(** The indices [i], [i+1], ... visited by [n] turns of a loop. *)
Fixpoint iota (i : N) (n : nat) : list N :=
  match n with
  | O => []
  | S n' => i :: iota (i + 1) n'
  end.

(** An array of [n] initialised primitives of kind [k]; for [n = 0] no
    array at all. *)
Definition prims_at (k : kind) (w : world) (a : ptr) (n : N) : bool :=
  match a with
  | None => n =? 0
  | Some b =>
      match heap w !! b with
      | Some (Prims k' fs) =>
          bool_decide (k' = k) && (N.of_nat (length fs) =? n) && forallb id fs
      | _ => false
      end
  end.

Abbreviation mutexes_at := (prims_at KMutex).
Abbreviation conds_at := (prims_at KCond).

(** An array of [n] thread slots. *)
Definition threads_at (w : world) (a : ptr) (n : N) : bool :=
  match a with
  | None => false
  | Some b =>
      match heap w !! b with
      | Some (Threads ts) => N.of_nat (length ts) =? n
      | _ => false
      end
  end.

(** [th] points to a pool object. *)
Definition valid_pool (w : world) (th : ptr) : bool :=
  match th with
  | Some b => match heap w !! b with Some (Pool _) => true | _ => false end
  | None => false
  end.

(** [th] points to a pool all of whose three arrays are fully allocated. *)
Definition pool_full (w : world) (th : ptr) : bool :=
  match th with
  | Some b =>
      match heap w !! b with
      | Some (Pool s) =>
          mutexes_at w (muts s) (mlen s) && conds_at w (conds s) (clen s)
          && threads_at w (threads s) (len s)
      | _ => false
      end
  | None => false
  end.

(** The platform grants every request for memory. *)
Definition grants (P : platform) : Prop := ∀ tr n, malloc_ok P tr n = true.

(** An array of [n] elements of [sz] bytes has a size that [size_t] holds. *)
Definition fits (n : N) (sz : positive) : Prop := n * N.pos sz < SIZE_MOD.

(** The events the primitives of a destroyed array leave behind. *)
Definition des_muts_events (a : ptr) (n : N) : list event :=
  match a with
  | Some b =>
      if 0 <? n then map (EvMutexDestroy b) (iota 0 (N.to_nat n)) ++ [EvFree b] else []
  | None => []
  end.

Definition des_conds_events (a : ptr) (n : N) : list event :=
  match a with
  | Some b =>
      if 0 <? n then map (EvCondDestroy b) (iota 0 (N.to_nat n)) ++ [EvFree b] else []
  | None => []
  end.

(** The handles passed to [pthread_join] in a stretch of the trace, and the
    answers they got. *)
Definition joined (evs : list event) : list (option N) :=
  omap (λ e, match e with EvJoin h _ => Some h | _ => None end) evs.

Definition join_answers (evs : list event) : list Z :=
  omap (λ e, match e with EvJoin _ rc => Some rc | _ => None end) evs.

Definition is_join (e : event) : bool :=
  match e with EvJoin _ _ => true | _ => false end.

(** The join calls made for the handles [hs], one after the other, each
    answered by the platform from the history it then has. *)
Fixpoint join_events (P : platform) (tr : list event) (hs : list (option N)) : list event :=
  match hs with
  | [] => []
  | h :: hs' =>
      let e := EvJoin h (join_rc P tr h) in
      e :: join_events P (tr ++ [e]) hs'
  end.

(** The [int] accumulator of [prethd_join] after the answers [rcs]. *)
Definition sum_int (chk : Z) (rcs : list Z) : Z :=
  foldl (λ c rc, wrap_int (c + rc)) chk rcs.

(** What was appended to the trace between two worlds. *)
Definition since (w w' : world) : list event := drop (length (trace w)) (trace w').

(** The operations a caller may apply to a live pool between its
    construction and its release. *)
Inductive op :=
| OpAll
| OpJoin
| OpLock (i : N)
| OpUnlock (i : N)
| OpWait (c m : N)
| OpSignal (i : N)
| OpBroad (i : N).

Definition run_op (P : platform) (th : ptr) (o : op) : M unit :=
  match o with
  | OpAll => prethd_all P th;; mret tt
  | OpJoin => prethd_join P th;; mret tt
  | OpLock i => prethd_lock P th i;; mret tt
  | OpUnlock i => prethd_unlock P th i;; mret tt
  | OpWait c m => prethd_wait P th c m;; mret tt
  | OpSignal i => prethd_signal P th i;; mret tt
  | OpBroad i => prethd_broad P th i;; mret tt
  end.

Fixpoint run_ops (P : platform) (th : ptr) (os : list op) : M unit :=
  match os with
  | [] => mret tt
  | o :: os' => run_op P th o;; run_ops P th os'
  end.

(** ** Notions used by the proofs *)

(** [init_muts] and [init_conds] are one function up to the kind of
    primitive and its size; so are [des_muts] and [des_conds]. *)
Definition init_array (P : platform) (k : kind) (sz : positive) (n : N) : M ptr :=
  if n =? 0 then mret NULL else
  let size := wrap_size (n * N.pos sz) in
  a ← malloc P size (Prims k (replicate (elems size sz) false));
  match a with
  | Some _ => for_loop (N.to_nat n) 0 (prim_init k a);; mret a
  | None => mret a
  end.

Definition des_array (k : kind) (a : ptr) (n : N) : M unit :=
  match a with
  | Some _ =>
      if 0 <? n then for_loop (N.to_nat n) 0 (prim_destroy k a);; free a else mret tt
  | None => mret tt
  end.

Definition des_array_events (k : kind) (a : ptr) (n : N) : list event :=
  match a with
  | Some b =>
      if 0 <? n then map (ev_destroy k b) (iota 0 (N.to_nat n)) ++ [EvFree b] else []
  | None => []
  end.

(** What a returning [init_array] has made: nothing (for [n = 0], or when
    malloc refused), or a fresh array of exactly [n] initialised
    primitives. *)
Definition array_made (k : kind) (n : N) (w : world) (a : ptr) (w1 : world) : Prop :=
  ∃ evs,
    match a with
    | None => w1 = mk_world (heap w) (next_block w) (next_tid w) (trace w ++ evs)
    | Some b =>
        b = next_block w ∧ n ≠ 0 ∧
        ∃ fs, w1 = mk_world (<[b:=Prims k fs]> (heap w)) (Pos.succ b) (next_tid w)
                            (trace w ++ evs) ∧
              length fs = N.to_nat n ∧ forallb id fs = true
    end.

(** The heap without the array [des_array] frees. *)
Definition drop_array (a : ptr) (n : N) (h : gmap positive cell) : gmap positive cell :=
  match a with
  | Some b => if 0 <? n then delete b h else h
  | None => h
  end.

(** What [prethd_new] has built when it returns the pool [p]: a pool object
    with the counts asked for, a thread array, and for each kind of
    primitive either no array or a fully initialised one. *)
Definition fresh_pool (P : platform) (th mut cond : N) (w : world) (p : block)
    (w1 : world) : Prop :=
  ∃ s t,
    p = next_block w ∧ next_tid w1 = next_tid w ∧
    heap w1 !! p = Some (Pool s) ∧ len s = th ∧ mlen s = mut ∧ clen s = cond ∧
    threads s = Some t ∧
    heap w1 !! t =
      Some (Threads (replicate (elems (wrap_size (th * N.pos (sizeof_thread P)))
                                      (sizeof_thread P)) None)) ∧
    (muts s = None ∨ mutexes_at w1 (muts s) mut = true) ∧ (mut = 0 → muts s = None) ∧
    (conds s = None ∨ conds_at w1 (conds s) cond = true) ∧ (cond = 0 → conds s = None).

(** Every pool object of [w] is found unchanged in [w1]. *)
Definition pools_kept (w w1 : world) : Prop :=
  ∀ x s, heap w !! x = Some (Pool s) → heap w1 !! x = Some (Pool s).

(** ** Exact worlds, frames and handles *)

(** Blocks from [next_block] on have never been handed out. *)
Definition tidy (w : world) : Prop :=
  ∀ x, (next_block w ≤ x)%positive → heap w !! x = None.

(** What [init_array] logs when it returns [a]: nothing for [n = 0], a
    refused malloc, or a granted malloc followed by the initialisation of
    elements 0, ..., [n - 1]. *)
Definition init_array_events (k : kind) (sz : positive) (n : N) (a : ptr) : list event :=
  match a with
  | Some b =>
      EvMalloc (wrap_size (n * N.pos sz)) (Some b)
      :: map (ev_init k b) (iota 0 (N.to_nat n))
  | None => if n =? 0 then [] else [EvMalloc (wrap_size (n * N.pos sz)) NULL]
  end.

(** The world [init_array] leaves when it returns [a] with flags [fs]. *)
Definition init_array_world (k : kind) (sz : positive) (n : N) (a : ptr)
    (fs : list bool) (w : world) : world :=
  mk_world (match a with Some b => <[b:=Prims k fs]> (heap w) | None => heap w end)
           (match a with Some b => Pos.succ b | None => next_block w end)
           (next_tid w)
           (trace w ++ init_array_events k sz n a).

(** The heap with the array [a] of flags [fs] put in. *)
Definition put_array (k : kind) (a : ptr) (fs : list bool)
    (h : gmap positive cell) : gmap positive cell :=
  match a with
  | Some b => <[b:=Prims k fs]> h
  | None => h
  end.

(** The events of the operations on a live pool: calls on threads and on
    primitives; no allocation, release, initialisation or destruction. *)
Definition is_call (e : event) : bool :=
  match e with
  | EvCreate _ _ _ | EvJoin _ _ | EvLock _ _ _ | EvUnlock _ _ _
  | EvWait _ _ _ _ _ | EvSignal _ _ _ | EvBroadcast _ _ _ => true
  | _ => false
  end.

(** The thread array of the pool [th], if [th] points to a pool. *)
Definition thread_array (w : world) (th : ptr) : ptr :=
  match th with
  | Some p => match heap w !! p with Some (Pool s) => threads s | _ => None end
  | None => None
  end.

(** From [w] to [w1] nothing was allocated or freed, no block changed except
    that the thread array [a] may hold other handles, and only calls were
    logged. *)
Definition only_handles (a : ptr) (w w1 : world) : Prop :=
  next_block w1 = next_block w ∧
  (∀ x, heap w1 !! x = heap w !! x ∨
        a = Some x ∧
        ∃ ts ts', heap w !! x = Some (Threads ts) ∧
                  heap w1 !! x = Some (Threads ts') ∧ length ts' = length ts) ∧
  ∃ evs, trace w1 = trace w ++ evs ∧ forallb is_call evs = true.

(** The handles of [k] threads started one after the other, the first of
    them getting [tid]. *)
Fixpoint handles (tid : N) (k : nat) : list (option N) :=
  match k with
  | O => []
  | S k' => Some tid :: handles (tid + 1) k'
  end.

(** ** Sample platforms *)

(** An empty heap and an empty history. *)
Definition boot : world := mk_world ∅ 1%positive 0 [].

(** An LP64 platform on which every call succeeds. *)
Definition lp64 : platform :=
  mk_platform 48 8 40 48 (λ _ _, true)
    (λ _ _ _, 0%Z) (λ _ _, 0%Z) (λ _ _ _, 0%Z) (λ _ _ _, 0%Z)
    (λ _ _ _ _ _, 0%Z) (λ _ _ _, 0%Z) (λ _ _ _, 0%Z).

(** The same platform, out of memory for a request of exactly 40 bytes (one
    mutex). *)
Definition lp64_no_mutex : platform :=
  mk_platform 48 8 40 48 (λ _ size, negb (size =? 40))
    (λ _ _ _, 0%Z) (λ _ _, 0%Z) (λ _ _ _, 0%Z) (λ _ _ _, 0%Z)
    (λ _ _ _ _ _, 0%Z) (λ _ _ _, 0%Z) (λ _ _ _, 0%Z).

(** The same platform, out of memory for a request of exactly 8 bytes (one
    thread slot). *)
Definition lp64_no_threads : platform :=
  mk_platform 48 8 40 48 (λ _ size, negb (size =? 8))
    (λ _ _ _, 0%Z) (λ _ _, 0%Z) (λ _ _ _, 0%Z) (λ _ _ _, 0%Z)
    (λ _ _ _ _ _, 0%Z) (λ _ _ _, 0%Z) (λ _ _ _, 0%Z).

(** The same platform, unable to start a thread in slot 1 or later
    ([EAGAIN] = 11) and answering [ESRCH] = 3 to a join on a slot that holds
    no thread. *)
Definition lp64_one_thread : platform :=
  mk_platform 48 8 40 48 (λ _ _, true)
    (λ _ _ i, if i <? 1 then 0%Z else 11%Z)
    (λ _ h, match h with Some _ => 0%Z | None => 3%Z end)
    (λ _ _ _, 0%Z) (λ _ _ _, 0%Z)
    (λ _ _ _ _ _, 0%Z) (λ _ _ _, 0%Z) (λ _ _ _, 0%Z).

(** ** The monad: running and inverting a bind *)

Lemma bind_run {A B} (c : M A) (f : A → M B) w a w1 :
  c w = Ok a w1 → (c ≫= f) w = f a w1.
Proof. unfold mbind, M_bind. by intros ->. Qed.

Lemma bind_fault {A B} (c : M A) (f : A → M B) w :
  c w = Fault → (c ≫= f) w = Fault.
Proof. unfold mbind, M_bind. by intros ->. Qed.

Lemma bind_ok {A B} (c : M A) (f : A → M B) w b w2 :
  (c ≫= f) w = Ok b w2 ↔ ∃ a w1, c w = Ok a w1 ∧ f a w1 = Ok b w2.
Proof.
  unfold mbind, M_bind. destruct (c w) as [a w1|]; split.
  - eauto.
  - by intros (? & ? & [= <- <-] & ?).
  - done.
  - by intros (? & ? & [=] & ?).
Qed.

Lemma since_app w w' evs : trace w' = trace w ++ evs → since w w' = evs.
Proof. unfold since. intros ->. by rewrite drop_app_length. Qed.

(** ** Primitive steps *)

Lemma load_run w b c : heap w !! b = Some c → load b w = Ok c w.
Proof. unfold load. by intros ->. Qed.

Lemma load_ok w b c w1 : load b w = Ok c w1 → w1 = w ∧ heap w !! b = Some c.
Proof. unfold load. destruct (heap w !! b); naive_solver. Qed.

Lemma load_pool_run w b s : heap w !! b = Some (Pool s) → load_pool b w = Ok s w.
Proof. intros H. unfold load_pool. by rewrite (bind_run _ _ _ _ _ (load_run _ _ _ H)). Qed.

Lemma load_pool_ok w b s w1 :
  load_pool b w = Ok s w1 → w1 = w ∧ heap w !! b = Some (Pool s).
Proof.
  unfold load_pool. intros (c & w' & Hl & Hc)%bind_ok.
  apply load_ok in Hl as [-> Hl]. destruct c; try done.
  by injection Hc as -> ->.
Qed.

Lemma load_thread_run w t ts i h :
  heap w !! t = Some (Threads ts) → ts !! N.to_nat i = Some h →
  load_thread (Some t) i w = Ok h w.
Proof.
  intros Ht Hi. unfold load_thread.
  rewrite (bind_run _ _ _ _ _ (load_run _ _ _ Ht)). by rewrite Hi.
Qed.

Lemma load_thread_ok a i w h w1 : load_thread a i w = Ok h w1 → w1 = w.
Proof.
  unfold load_thread. destruct a as [b|]; [|done].
  intros (c & w' & Hl & Hc)%bind_ok. apply load_ok in Hl as [-> _].
  destruct c as [| |ts]; try done.
  destruct (ts !! N.to_nat i); [|done]. by injection Hc as _ ->.
Qed.

(** ** The join loop *)

Section JoinLoop.
Context (P : platform).

(** On an array that holds the slots it visits, the loop calls
    [pthread_join] once per slot, in order, and changes nothing else. *)
Lemma join_loop_run t ts n : ∀ i chk w,
  heap w !! t = Some (Threads ts) →
  (N.to_nat i + n ≤ length ts)%nat →
  let evs := join_events P (trace w) (take n (drop (N.to_nat i) ts)) in
  join_loop P (Some t) n i chk w =
    Ok (sum_int chk (join_answers evs))
       (mk_world (heap w) (next_block w) (next_tid w) (trace w ++ evs)).
Proof.
  induction n as [|n IH]; intros i chk w Ht Hn; simpl.
  - rewrite app_nil_r. by destruct w.
  - destruct (lookup_lt_is_Some_2 ts (N.to_nat i)) as [h Hh]; [lia|].
    rewrite (bind_run _ _ _ _ _ (load_thread_run _ _ _ _ _ Ht Hh)).
    rewrite (drop_S _ _ _ Hh). simpl.
    unfold pthread_join, answer, mbind at 1, M_bind at 1.
    rewrite IH; simpl; [|done|lia].
    replace (N.to_nat (i + 1)) with (S (N.to_nat i)) by lia.
    by rewrite <- app_assoc.
Qed.

(** Whatever the array, a join loop that returns has only read the heap and
    logged join calls. *)
Lemma join_loop_frame a n : ∀ i chk w c w1,
  join_loop P a n i chk w = Ok c w1 →
  heap w1 = heap w ∧ next_block w1 = next_block w ∧ next_tid w1 = next_tid w ∧
  ∃ evs, trace w1 = trace w ++ evs ∧ forallb is_join evs = true.
Proof.
  induction n as [|n IH]; intros i chk w c w1; simpl.
  - intros [= <- <-]. repeat split; try done. exists []. by rewrite app_nil_r.
  - intros (h & w' & Hl & Hk)%bind_ok. apply load_thread_ok in Hl as ->.
    apply bind_ok in Hk as (rc & w' & Hj & Hk).
    unfold pthread_join, answer in Hj. injection Hj as <- <-.
    apply IH in Hk as (-> & -> & -> & evs & -> & Hevs). simpl.
    repeat split; try done.
    exists (EvJoin h (join_rc P (trace w) h) :: evs). by rewrite <- app_assoc.
Qed.

Lemma prethd_join_frame th w r w1 :
  prethd_join P th w = Ok r w1 →
  heap w1 = heap w ∧ next_block w1 = next_block w ∧ next_tid w1 = next_tid w ∧
  ∃ evs, trace w1 = trace w ++ evs ∧ forallb is_join evs = true.
Proof.
  unfold prethd_join. destruct th as [b|].
  - intros (s & w' & Hs & Hk)%bind_ok. apply load_pool_ok in Hs as [-> _].
    apply bind_ok in Hk as (chk & w' & Hj & [= <- <-]).
    by apply join_loop_frame in Hj.
  - intros [= <- <-]. repeat split; try done. exists []. by rewrite app_nil_r.
Qed.

End JoinLoop.

(** ** Operations on an absent pool *)

(** C7: every operation of the interface, called with a null pool pointer,
    returns its sentinel (zero for the three sizes and for the start count,
    false for the boolean operations, nothing for the two frees) and leaves
    the world, heap and trace alike, exactly as it found it. *)
Theorem null_pool_is_inert (P : platform) (w : world) (i c m : N) :
  prethd_size NULL w = Ok 0 w ∧
  prethd_mutex_size NULL w = Ok 0 w ∧
  prethd_cond_size NULL w = Ok 0 w ∧
  prethd_all P NULL w = Ok 0 w ∧
  prethd_join P NULL w = Ok false w ∧
  prethd_lock P NULL i w = Ok false w ∧
  prethd_unlock P NULL i w = Ok false w ∧
  prethd_wait P NULL c m w = Ok false w ∧
  prethd_signal P NULL i w = Ok false w ∧
  prethd_broad P NULL i w = Ok false w ∧
  prethd_free NULL w = Ok tt w ∧
  prethd_join_free P NULL w = Ok tt w.
Proof. repeat split. Qed.

(** ** Join, then free *)

Section JoinFree.
Context (P : platform).

(** C6: [prethd_join_free] is [prethd_join] followed, exactly when the join
    answers true, by the release steps of [prethd_free] run on the world the
    join left; when the join answers false nothing is released: the heap is
    the one before the call and only join calls were logged. *)
Theorem join_free_is_join_then_free (th : ptr) (w : world) :
  prethd_join_free P th w =
    match prethd_join P th w with
    | Ok true w1 => prethd_free th w1
    | Ok false w1 => Ok tt w1
    | Fault => Fault
    end
  ∧ ∀ w1, prethd_join P th w = Ok false w1 →
      prethd_join_free P th w = Ok tt w1 ∧ heap w1 = heap w ∧
      forallb is_join (since w w1) = true.
Proof.
  assert (Heq : prethd_join_free P th w =
    match prethd_join P th w with
    | Ok true w1 => prethd_free th w1
    | Ok false w1 => Ok tt w1
    | Fault => Fault
    end).
  { unfold prethd_join_free, mbind at 1, M_bind at 1.
    destruct (prethd_join P th w) as [[] w1|] eqn:E; try done.
    by destruct th. }
  split; [done|]. intros w1 Hj. rewrite Heq, Hj.
  apply prethd_join_frame in Hj as (-> & _ & _ & evs & Htr & Hevs).
  by rewrite (since_app _ _ _ Htr).
Qed.

End JoinFree.

(** On a pool of two slots of which only the first could be started, the
    join fails and the pool stays allocated. *)
Lemma join_free_is_join_then_free_witness :
  let w := after (prethd_all lp64_one_thread (Some 1%positive))
                 (after (prethd_new lp64_one_thread 2 1 0) boot) in
  let w1 := after (prethd_join lp64_one_thread (Some 1%positive)) w in
  prethd_join_free lp64_one_thread (Some 1%positive) w = Ok tt w1 ∧
  heap w1 = heap w ∧ forallb is_join (since w w1) = true.
Proof.
  intros w w1.
  apply (proj2 (join_free_is_join_then_free lp64_one_thread (Some 1%positive) w) w1).
  vm_compute. reflexivity.
Defined.

(** ** Well-formed arrays *)

Lemma forallb_id_lookup (l : list bool) (i : nat) :
  forallb id l = true → (i < length l)%nat → l !! i = Some true.
Proof.
  intros Hall Hi. destruct (lookup_lt_is_Some_2 l i Hi) as [f Hf].
  rewrite Hf. f_equal.
  apply forallb_forall with (x := f) in Hall; [done|].
  apply list_elem_of_In, list_elem_of_lookup. eauto.
Qed.

Lemma prims_at_lookup k w a n i :
  prims_at k w a n = true → i < n →
  ∃ b fs, a = Some b ∧ heap w !! b = Some (Prims k fs) ∧
          length fs = N.to_nat n ∧ fs !! N.to_nat i = Some true.
Proof.
  unfold prims_at. destruct a as [b|]; [|intros ?%N.eqb_eq ?; lia].
  destruct (heap w !! b) as [[| k' fs |]|] eqn:Hb; try done.
  intros [[->%bool_decide_eq_true Hlen]%andb_true_iff Hall]%andb_true_iff Hi.
  apply N.eqb_eq in Hlen.
  exists b, fs. repeat split; [done|lia|]. apply forallb_id_lookup; [done|lia].
Qed.

Lemma threads_at_lookup w a n :
  threads_at w a n = true →
  ∃ b ts, a = Some b ∧ heap w !! b = Some (Threads ts) ∧ length ts = N.to_nat n.
Proof.
  unfold threads_at. destruct a as [b|]; [|done].
  destruct (heap w !! b) as [[| |ts]|] eqn:Hb; try done.
  intros Hlen%N.eqb_eq. exists b, ts. repeat split; [done|lia].
Qed.

Lemma pool_full_inv w p s :
  heap w !! p = Some (Pool s) → pool_full w (Some p) = true →
  mutexes_at w (muts s) (mlen s) = true ∧ conds_at w (conds s) (clen s) = true ∧
  threads_at w (threads s) (len s) = true.
Proof.
  unfold pool_full. intros ->. by intros [[? ?]%andb_true_iff ?]%andb_true_iff.
Qed.

Lemma load_prim_run k w b fs i f :
  heap w !! b = Some (Prims k fs) → fs !! N.to_nat i = Some f →
  load_prim k (Some b) i w = Ok (b, f) w.
Proof.
  intros Hb Hi. unfold load_prim.
  rewrite (bind_run _ _ _ _ _ (load_run _ _ _ Hb)).
  rewrite decide_True by done. by rewrite Hi.
Qed.

(** ** Indexed access *)

Section Indexed.
Context (P : platform).

(** On an initialised primitive each call is answered by the platform and
    logged; nothing else happens. *)
Lemma pthread_mutex_lock_run w b ms i :
  heap w !! b = Some (Mutexes ms) → ms !! N.to_nat i = Some true →
  pthread_mutex_lock P (Some b) i w =
    Ok (lock_rc P (trace w) b i) (log (EvLock b i (lock_rc P (trace w) b i)) w).
Proof.
  intros Hb Hi. unfold pthread_mutex_lock.
  by rewrite (bind_run _ _ _ _ _ (load_prim_run _ _ _ _ _ _ Hb Hi)).
Qed.

Lemma pthread_mutex_unlock_run w b ms i :
  heap w !! b = Some (Mutexes ms) → ms !! N.to_nat i = Some true →
  pthread_mutex_unlock P (Some b) i w =
    Ok (unlock_rc P (trace w) b i) (log (EvUnlock b i (unlock_rc P (trace w) b i)) w).
Proof.
  intros Hb Hi. unfold pthread_mutex_unlock.
  by rewrite (bind_run _ _ _ _ _ (load_prim_run _ _ _ _ _ _ Hb Hi)).
Qed.

Lemma pthread_cond_signal_run w b cs i :
  heap w !! b = Some (Conds cs) → cs !! N.to_nat i = Some true →
  pthread_cond_signal P (Some b) i w =
    Ok (signal_rc P (trace w) b i) (log (EvSignal b i (signal_rc P (trace w) b i)) w).
Proof.
  intros Hb Hi. unfold pthread_cond_signal.
  by rewrite (bind_run _ _ _ _ _ (load_prim_run _ _ _ _ _ _ Hb Hi)).
Qed.

Lemma pthread_cond_broadcast_run w b cs i :
  heap w !! b = Some (Conds cs) → cs !! N.to_nat i = Some true →
  pthread_cond_broadcast P (Some b) i w =
    Ok (broadcast_rc P (trace w) b i)
       (log (EvBroadcast b i (broadcast_rc P (trace w) b i)) w).
Proof.
  intros Hb Hi. unfold pthread_cond_broadcast.
  by rewrite (bind_run _ _ _ _ _ (load_prim_run _ _ _ _ _ _ Hb Hi)).
Qed.

(** C2: on a pool with [mlen s] mutexes and [clen s] condition variables,
    lock and unlock answer false for every index at or beyond [mlen s], wait
    answers false as soon as one of its two indices is out of range, signal
    and broadcast answer false for every index at or beyond [clen s], and
    none of these refusals touches the world.  For an index within range the
    operation hands the call to the primitive of that index and answers true
    when the primitive answers zero.  On a pool whose arrays are fully
    allocated the primitive is there: the call is answered by the platform
    and logged. *)
Theorem indices_are_checked (w : world) (p : block) (s : pre_threads_t) (i c m : N) :
  heap w !! p = Some (Pool s) →
  (mlen s ≤ i →
     prethd_lock P (Some p) i w = Ok false w ∧
     prethd_unlock P (Some p) i w = Ok false w) ∧
  (clen s ≤ c ∨ mlen s ≤ m → prethd_wait P (Some p) c m w = Ok false w) ∧
  (clen s ≤ i →
     prethd_signal P (Some p) i w = Ok false w ∧
     prethd_broad P (Some p) i w = Ok false w) ∧
  (i < mlen s → ∀ w1,
     (pthread_mutex_lock P (muts s) i w = Ok 0%Z w1 →
        prethd_lock P (Some p) i w = Ok true w1) ∧
     (pthread_mutex_unlock P (muts s) i w = Ok 0%Z w1 →
        prethd_unlock P (Some p) i w = Ok true w1)) ∧
  (i < clen s → ∀ w1,
     (pthread_cond_signal P (conds s) i w = Ok 0%Z w1 →
        prethd_signal P (Some p) i w = Ok true w1) ∧
     (pthread_cond_broadcast P (conds s) i w = Ok 0%Z w1 →
        prethd_broad P (Some p) i w = Ok true w1)) ∧
  (pool_full w (Some p) = true → i < mlen s →
     ∃ mb, muts s = Some mb ∧
       (lock_rc P (trace w) mb i = 0%Z →
          prethd_lock P (Some p) i w = Ok true (log (EvLock mb i 0) w)) ∧
       (unlock_rc P (trace w) mb i = 0%Z →
          prethd_unlock P (Some p) i w = Ok true (log (EvUnlock mb i 0) w))) ∧
  (pool_full w (Some p) = true → i < clen s →
     ∃ cb, conds s = Some cb ∧
       (signal_rc P (trace w) cb i = 0%Z →
          prethd_signal P (Some p) i w = Ok true (log (EvSignal cb i 0) w)) ∧
       (broadcast_rc P (trace w) cb i = 0%Z →
          prethd_broad P (Some p) i w = Ok true (log (EvBroadcast cb i 0) w))).
Proof.
  intros Hp. pose proof (load_pool_run _ _ _ Hp) as Hs.
  unfold prethd_lock, prethd_unlock, prethd_wait, prethd_signal, prethd_broad.
  rewrite !(bind_run _ _ _ _ _ Hs).
  split; [|split; [|split; [|split; [|split; [|split]]]]].
  - intros Hi%N.leb_le. by rewrite Hi.
  - intros [Hc%N.leb_le|Hm%N.leb_le]; [by rewrite Hc|].
    rewrite Hm. by rewrite orb_true_r.
  - intros Hi%N.leb_le. by rewrite Hi.
  - intros Hi w1. assert ((mlen s <=? i) = false) as -> by (apply N.leb_gt; lia).
    split; intros Hrc; by rewrite (bind_run _ _ _ _ _ Hrc).
  - intros Hi w1. assert ((clen s <=? i) = false) as -> by (apply N.leb_gt; lia).
    split; intros Hrc; by rewrite (bind_run _ _ _ _ _ Hrc).
  - intros Hfull Hi. destruct (pool_full_inv _ _ _ Hp Hfull) as (Hm & _ & _).
    destruct (prims_at_lookup _ _ _ _ _ Hm Hi) as (mb & ms & Hmb & Hms & _ & Hflag).
    exists mb. split; [done|].
    assert ((mlen s <=? i) = false) as -> by (apply N.leb_gt; lia).
    rewrite Hmb. split; intros Hrc.
    + rewrite (bind_run _ _ _ _ _ (pthread_mutex_lock_run _ _ _ _ Hms Hflag)).
      by rewrite Hrc.
    + rewrite (bind_run _ _ _ _ _ (pthread_mutex_unlock_run _ _ _ _ Hms Hflag)).
      by rewrite Hrc.
  - intros Hfull Hi. destruct (pool_full_inv _ _ _ Hp Hfull) as (_ & Hc & _).
    destruct (prims_at_lookup _ _ _ _ _ Hc Hi) as (cb & cs & Hcb & Hcs & _ & Hflag).
    exists cb. split; [done|].
    assert ((clen s <=? i) = false) as -> by (apply N.leb_gt; lia).
    rewrite Hcb. split; intros Hrc.
    + rewrite (bind_run _ _ _ _ _ (pthread_cond_signal_run _ _ _ _ Hcs Hflag)).
      by rewrite Hrc.
    + rewrite (bind_run _ _ _ _ _ (pthread_cond_broadcast_run _ _ _ _ Hcs Hflag)).
      by rewrite Hrc.
Qed.

End Indexed.

(** On the pool [prethd_new(3, 2, 1)] builds on the sample platform: index 5
    is refused everywhere, index 0 reaches mutex 0 and condition variable
    0. *)
Lemma indices_are_checked_witness :
  let w := after (prethd_new lp64 3 2 1) boot in
  (prethd_lock lp64 (Some 1%positive) 5 w = Ok false w ∧
   prethd_unlock lp64 (Some 1%positive) 5 w = Ok false w) ∧
  prethd_wait lp64 (Some 1%positive) 0 5 w = Ok false w ∧
  (prethd_signal lp64 (Some 1%positive) 5 w = Ok false w ∧
   prethd_broad lp64 (Some 1%positive) 5 w = Ok false w) ∧
  prethd_lock lp64 (Some 1%positive) 0 w = Ok true (log (EvLock 2 0 0) w) ∧
  prethd_unlock lp64 (Some 1%positive) 0 w = Ok true (log (EvUnlock 2 0 0) w) ∧
  prethd_signal lp64 (Some 1%positive) 0 w = Ok true (log (EvSignal 3 0 0) w) ∧
  prethd_broad lp64 (Some 1%positive) 0 w = Ok true (log (EvBroadcast 3 0 0) w).
Proof.
  intros w.
  set (s := mk_pool (Some 2%positive) (Some 3%positive) (Some 4%positive) 3 2 1).
  assert (Hp : heap w !! 1%positive = Some (Pool s)) by (vm_compute; reflexivity).
  destruct (indices_are_checked lp64 w 1%positive s 5 0 5 Hp) as (H1 & H2 & H3 & _).
  destruct (indices_are_checked lp64 w 1%positive s 0 0 0 Hp) as (_ & _ & _ & _ & _ & H4 & H5).
  destruct H4 as (mb & Hmb & Hl & Hu); [vm_compute; reflexivity | reflexivity |].
  destruct H5 as (cb & Hcb & Hsg & Hbr); [vm_compute; reflexivity | reflexivity |].
  injection Hmb as <-. injection Hcb as <-.
  split; [apply H1; vm_compute; discriminate |].
  split; [apply H2; right; vm_compute; discriminate |].
  split; [apply H3; vm_compute; discriminate |].
  split; [apply Hl; reflexivity |].
  split; [apply Hu; reflexivity |].
  split; [apply Hsg; reflexivity | apply Hbr; reflexivity].
Defined.

(** ** Join *)

Lemma wrap_int_small z : (0 ≤ z ≤ INT_MAX)%Z → wrap_int z = z.
Proof.
  unfold wrap_int, INT_MAX. intros Hz.
  rewrite Z.mod_small; lia.
Qed.

(** As long as the answers are error numbers (zero or positive) and their
    total stays within [int], the accumulator is zero exactly when every
    answer is. *)
Lemma sum_int_zero (emax : Z) (rcs : list Z) : ∀ chk,
  Forall (λ rc, 0 ≤ rc ≤ emax)%Z rcs →
  (0 ≤ chk)%Z → (chk + Z.of_nat (length rcs) * emax ≤ INT_MAX)%Z →
  (sum_int chk rcs =? 0)%Z = ((chk =? 0)%Z && forallb (λ rc, rc =? 0)%Z rcs).
Proof.
  induction rcs as [|rc rcs IH]; intros chk Hall Hchk Hmax; simpl.
  - by rewrite andb_true_r.
  - apply Forall_cons in Hall as [Hrc Hall].
    simpl length in Hmax. rewrite Nat2Z.inj_succ, Z.mul_succ_l in Hmax.
    assert (0 ≤ Z.of_nat (length rcs) * emax)%Z by (apply Z.mul_nonneg_nonneg; lia).
    unfold sum_int in *. simpl. rewrite wrap_int_small by lia.
    rewrite IH by (done || lia).
    cbn [forallb]. destruct (Z.eqb_spec chk 0), (Z.eqb_spec rc 0), (Z.eqb_spec (chk + rc) 0);
      simpl; try done; lia.
Qed.

Section Join.
Context (P : platform).

Lemma joined_join_events hs : ∀ tr, joined (join_events P tr hs) = hs.
Proof.
  induction hs as [|h hs IH]; intros tr; [done|].
  unfold joined in *. simpl. by rewrite IH.
Qed.

Lemma join_answers_length hs : ∀ tr,
  length (join_answers (join_events P tr hs)) = length hs.
Proof.
  induction hs as [|h hs IH]; intros tr; [done|].
  unfold join_answers in *. simpl. by rewrite IH.
Qed.

Lemma join_answers_bounded (emax : Z) hs :
  (∀ tr h, (0 ≤ join_rc P tr h ≤ emax)%Z) →
  ∀ tr, Forall (λ rc, 0 ≤ rc ≤ emax)%Z (join_answers (join_events P tr hs)).
Proof.
  intros Hrc. induction hs as [|h hs IH]; intros tr; [by constructor|].
  unfold join_answers in *. simpl. constructor; [apply Hrc | apply IH].
Qed.

(** What [prethd_join] does on a pool whose thread array holds its [len s]
    slots: one join per slot, in index order, whatever the earlier answers
    were. *)
Lemma prethd_join_run w p s t ts :
  heap w !! p = Some (Pool s) → threads s = Some t →
  heap w !! t = Some (Threads ts) → length ts = N.to_nat (len s) →
  let evs := join_events P (trace w) ts in
  prethd_join P (Some p) w =
    Ok (sum_int 0 (join_answers evs) =? 0)%Z
       (mk_world (heap w) (next_block w) (next_tid w) (trace w ++ evs)).
Proof.
  intros Hp Hts Ht Hlen evs. unfold prethd_join.
  rewrite (bind_run _ _ _ _ _ (load_pool_run _ _ _ Hp)), Hts.
  erewrite bind_run; [|apply (join_loop_run P t ts); [done | simpl; lia]].
  simpl. rewrite drop_0, <- Hlen, firstn_all. done.
Qed.

(** C5: [prethd_join] answers false for a null pool.  On a pool whose thread
    array holds its slots it joins every slot, in index order, whatever the
    earlier joins answered, and, [pthread_join] answering zero or a positive
    error number small enough for the [int] accumulator not to overflow, it
    answers true exactly when every join answered zero. *)
Theorem join_needs_every_join (w : world) (p t : block) (s : pre_threads_t)
    (ts : list (option N)) (emax : Z) :
  heap w !! p = Some (Pool s) → threads s = Some t →
  heap w !! t = Some (Threads ts) → length ts = N.to_nat (len s) →
  (∀ tr h, (0 ≤ join_rc P tr h ≤ emax)%Z) →
  (Z.of_N (len s) * emax ≤ INT_MAX)%Z →
  let evs := join_events P (trace w) ts in
  prethd_join P NULL w = Ok false w ∧
  prethd_join P (Some p) w =
    Ok (forallb (λ rc, rc =? 0)%Z (join_answers evs))
       (mk_world (heap w) (next_block w) (next_tid w) (trace w ++ evs)) ∧
  joined evs = ts.
Proof.
  intros Hp Hts Ht Hlen Hrc Hmax evs. split; [done|]. split.
  - rewrite (prethd_join_run _ _ _ _ _ Hp Hts Ht Hlen). fold evs. f_equal.
    rewrite (sum_int_zero emax); [done | by apply join_answers_bounded | done |].
    unfold evs. rewrite join_answers_length, Hlen. lia.
  - apply joined_join_events.
Qed.

End Join.

(** Two slots, the first started and the second not: both are joined, the
    second join fails with [ESRCH] and the result is false. *)
Lemma join_needs_every_join_witness :
  let w := after (prethd_all lp64_one_thread (Some 1%positive))
                 (after (prethd_new lp64_one_thread 2 1 0) boot) in
  let evs := [EvJoin (Some 0) 0; EvJoin None 3] in
  prethd_join lp64_one_thread NULL w = Ok false w ∧
  prethd_join lp64_one_thread (Some 1%positive) w =
    Ok false (mk_world (heap w) (next_block w) (next_tid w) (trace w ++ evs)) ∧
  joined evs = [Some 0; None].
Proof.
  intros w evs.
  apply (join_needs_every_join lp64_one_thread w 1%positive 3%positive
           (mk_pool (Some 2%positive) None (Some 3%positive) 2 1 0)
           [Some 0; None] 3%Z).
  - vm_compute. reflexivity.
  - reflexivity.
  - vm_compute. reflexivity.
  - reflexivity.
  - intros tr [h|]; simpl; lia.
  - vm_compute. discriminate.
Defined.

(** ** Starting the threads *)

Section StartAll.
Context (P : platform).

Lemma pthread_create_run w t ts i :
  heap w !! t = Some (Threads ts) → (N.to_nat i < length ts)%nat →
  let rc := create_rc P (trace w) t i in
  pthread_create P (Some t) i w =
    Ok rc (if (rc =? 0)%Z
           then mk_world (<[t:=Threads (<[N.to_nat i:=Some (next_tid w)]> ts)]> (heap w))
                         (next_block w) (next_tid w + 1)
                         (trace w ++ [EvCreate t i rc])
           else log (EvCreate t i rc) w).
Proof.
  intros Ht Hi rc. unfold pthread_create.
  rewrite (bind_run _ _ _ _ _ (load_run _ _ _ Ht)).
  rewrite decide_True by done. fold rc. by destruct (rc =? 0)%Z.
Qed.

Lemma all_loop_run t n : ∀ i ret w ts,
  heap w !! t = Some (Threads ts) → (N.to_nat i + n ≤ length ts)%nat →
  ∃ (k : nat) ts' tail,
    all_loop P (Some t) n i ret w =
      Ok (ret + N.of_nat k)
         (mk_world (<[t:=Threads ts']> (heap w)) (next_block w)
                   (next_tid w + N.of_nat k)
                   (trace w ++ map (λ j, EvCreate t j 0) (iota i k) ++ tail)) ∧
    (k ≤ n)%nat ∧ length ts' = length ts ∧
    (∀ j, (N.to_nat i ≤ j < N.to_nat i + k)%nat → ∃ tid, ts' !! j = Some (Some tid)) ∧
    (∀ j, (j < N.to_nat i ∨ N.to_nat i + k ≤ j)%nat → ts' !! j = ts !! j) ∧
    (k = n ∧ tail = [] ∨
     (k < n)%nat ∧ ∃ rc, rc ≠ 0%Z ∧ tail = [EvCreate t (i + N.of_nat k) rc]) ∧
    ((∀ tr b j, create_rc P tr b j = 0%Z) → k = n).
Proof.
  induction n as [|n IH]; intros i ret w ts Ht Hn.
  - exists 0%nat, ts, []. simpl. rewrite insert_id by done.
    rewrite !N.add_0_r, app_nil_r. destruct w. repeat split; auto; lia.
  - assert (Hi : (N.to_nat i < length ts)%nat) by lia.
    simpl. rewrite (bind_run _ _ _ _ _ (pthread_create_run _ _ _ _ Ht Hi)).
    destruct (Z.eqb_spec (create_rc P (trace w) t i) 0) as [Hrc|Hrc].
    + rewrite Hrc. set (ts1 := <[N.to_nat i:=Some (next_tid w)]> ts).
      match goal with |- context [all_loop _ _ _ _ _ ?w1] => set (w1' := w1) end.
      destruct (IH (i + 1) (ret + 1) w1' ts1) as
        (k & ts' & tail & Hrun & Hk & Hlen & Hst & Hun & Htail & Hall).
      { simpl. apply lookup_insert_eq. }
      { unfold ts1. rewrite length_insert. lia. }
      exists (S k), ts', tail. rewrite Hrun. simpl.
      rewrite insert_insert_eq. unfold ts1 in *. rewrite length_insert in Hlen.
      split; [|split; [lia|split; [done|split; [|split; [|split]]]]].
      * f_equal; [lia|]. f_equal; [lia|]. by rewrite <- app_assoc.
      * intros j Hj. destruct (decide (j = N.to_nat i)) as [->|Hne].
        -- exists (next_tid w). rewrite Hun by lia.
           apply list_lookup_insert_eq. lia.
        -- apply Hst. lia.
      * intros j Hj. rewrite Hun by lia. apply list_lookup_insert_ne. lia.
      * destruct Htail as [[-> ->]|(Hlt & rc & Hne & ->)]; [by left|].
        right. split; [lia|]. exists rc. split; [done|]. do 2 f_equal. lia.
      * intros Hok. f_equal. by apply Hall.
    + exists 0%nat, ts, [EvCreate t i (create_rc P (trace w) t i)].
      simpl.
      rewrite insert_id by done. rewrite !N.add_0_r.
      split; [by destruct w|]. split; [lia|]. split; [done|].
      split; [intros j ?; lia|]. split; [done|]. split.
      * right. split; [lia|]. eauto.
      * intros Hok. by rewrite Hok in Hrc.
Qed.

(** What [prethd_all] does on a pool whose thread array holds its [len s]
    slots. *)
Lemma prethd_all_run (w : world) (p t : block) (s : pre_threads_t)
    (ts : list (option N)) :
  heap w !! p = Some (Pool s) → threads s = Some t →
  heap w !! t = Some (Threads ts) → length ts = N.to_nat (len s) →
  ∃ (k : N) ts' tail,
    prethd_all P (Some p) w =
      Ok k (mk_world (<[t:=Threads ts']> (heap w)) (next_block w) (next_tid w + k)
                     (trace w ++ map (λ j, EvCreate t j 0) (iota 0 (N.to_nat k)) ++ tail)) ∧
    k ≤ len s ∧ length ts' = length ts ∧
    (∀ j, (j < N.to_nat k)%nat → ∃ tid, ts' !! j = Some (Some tid)) ∧
    (∀ j, (N.to_nat k ≤ j)%nat → ts' !! j = ts !! j) ∧
    (k = len s ∧ tail = [] ∨
     k < len s ∧ ∃ rc, rc ≠ 0%Z ∧ tail = [EvCreate t k rc]) ∧
    ((∀ tr b j, create_rc P tr b j = 0%Z) → k = len s).
Proof.
  intros Hp Hts Ht Hlen. unfold prethd_all.
  rewrite (bind_run _ _ _ _ _ (load_pool_run _ _ _ Hp)), Hts.
  destruct (all_loop_run t (N.to_nat (len s)) 0 0 w ts Ht) as
    (k & ts' & tail & Hrun & Hk & Hlen' & Hst & Hun & Htail & Hall); [simpl; lia|].
  exists (N.of_nat k), ts', tail. rewrite Hrun, Nat2N.id, N.add_0_l.
  split; [done|]. split; [lia|]. split; [done|].
  split; [intros j Hj; apply Hst; simpl; lia|].
  split; [intros j Hj; apply Hun; simpl; lia|]. split.
  - destruct Htail as [[-> ->]|(Hlt & rc & Hne & ->)].
    + left. split; [lia|done].
    + right. split; [lia|]. exists rc. by rewrite N.add_0_l.
  - intros Hok. rewrite (Hall Hok). lia.
Qed.

(** C4: [prethd_all] calls [pthread_create] on slots 0, 1, 2, ... in that
    order; at the first call that fails it stops, leaving that slot and all
    later ones as they were, and returns the number [k] of calls that
    succeeded.  So [k] never exceeds the number of threads of the pool, and
    it is that number when every call succeeds. *)
Theorem start_all_stops_at_first_failure (w : world) (p t : block)
    (s : pre_threads_t) (ts : list (option N)) :
  heap w !! p = Some (Pool s) → threads s = Some t →
  heap w !! t = Some (Threads ts) → length ts = N.to_nat (len s) →
  ∃ (k : N) ts' tail,
    prethd_all P (Some p) w =
      Ok k (mk_world (<[t:=Threads ts']> (heap w)) (next_block w) (next_tid w + k)
                     (trace w ++ map (λ j, EvCreate t j 0) (iota 0 (N.to_nat k)) ++ tail)) ∧
    k ≤ len s ∧ length ts' = length ts ∧
    (∀ j, (j < N.to_nat k)%nat → ∃ tid, ts' !! j = Some (Some tid)) ∧
    (∀ j, (N.to_nat k ≤ j)%nat → ts' !! j = ts !! j) ∧
    (k = len s ∧ tail = [] ∨
     k < len s ∧ ∃ rc, rc ≠ 0%Z ∧ tail = [EvCreate t k rc]) ∧
    ((∀ tr b j, create_rc P tr b j = 0%Z) → k = len s).
Proof. apply prethd_all_run. Qed.

End StartAll.

(** Three slots on a platform that starts one thread only. *)
Lemma start_all_stops_at_first_failure_witness :
  let w := after (prethd_new lp64_one_thread 3 0 0) boot in
  ∃ (k : N) ts' tail,
    prethd_all lp64_one_thread (Some 1%positive) w =
      Ok k (mk_world (<[2%positive:=Threads ts']> (heap w)) (next_block w)
                     (next_tid w + k)
                     (trace w ++ map (λ j, EvCreate 2 j 0) (iota 0 (N.to_nat k)) ++ tail)) ∧
    k ≤ 3 ∧ length ts' = 3%nat ∧
    (∀ j, (j < N.to_nat k)%nat → ∃ tid, ts' !! j = Some (Some tid)) ∧
    (∀ j, (N.to_nat k ≤ j)%nat → ts' !! j = [None; None; None] !! j) ∧
    (k = 3 ∧ tail = [] ∨
     k < 3 ∧ ∃ rc, rc ≠ 0%Z ∧ tail = [EvCreate 2 k rc]) ∧
    ((∀ tr b j, create_rc lp64_one_thread tr b j = 0%Z) → k = 3).
Proof.
  intros w.
  apply (start_all_stops_at_first_failure lp64_one_thread w 1%positive 2%positive
           (mk_pool None None (Some 2%positive) 3 0 0) [None; None; None]).
  - vm_compute. reflexivity.
  - reflexivity.
  - vm_compute. reflexivity.
  - reflexivity.
Defined.

(** ** Slots that were never started *)

Section Unstarted.
Context (P : platform).

(** C8, as the code has it: the pool keeps no record of which slots were
    started.  After a [prethd_all] that started [k] threads, [prethd_join]
    calls [pthread_join] once for every slot of the pool, in index order;
    the slots from [k] on are passed as [prethd_all] found them. *)
Theorem join_visits_every_slot (w w1 : world) (p t : block) (s : pre_threads_t)
    (ts : list (option N)) (k : N) :
  heap w !! p = Some (Pool s) → threads s = Some t →
  heap w !! t = Some (Threads ts) → length ts = N.to_nat (len s) →
  prethd_all P (Some p) w = Ok k w1 →
  ∃ ts1 r w2,
    heap w1 !! t = Some (Threads ts1) ∧
    prethd_join P (Some p) w1 = Ok r w2 ∧
    joined (since w1 w2) = ts1 ∧
    length ts1 = N.to_nat (len s) ∧
    (∀ j, (N.to_nat k ≤ j)%nat → ts1 !! j = ts !! j).
Proof.
  intros Hp Hts Ht Hlen Hall.
  destruct (prethd_all_run P w p t s ts Hp Hts Ht Hlen) as
    (k' & ts1 & tail & Hrun & _ & Hlen1 & _ & Hun & _).
  rewrite Hrun in Hall. injection Hall as -> <-.
  assert (Hne : t ≠ p) by (intros ->; congruence).
  assert (Hp1 : ∀ tr, heap (mk_world (<[t:=Threads ts1]> (heap w)) (next_block w)
                                     (next_tid w + k) tr) !! p = Some (Pool s)).
  { intros tr. simpl. by rewrite lookup_insert_ne. }
  assert (Ht1 : ∀ tr, heap (mk_world (<[t:=Threads ts1]> (heap w)) (next_block w)
                                     (next_tid w + k) tr) !! t = Some (Threads ts1)).
  { intros tr. simpl. apply lookup_insert_eq. }
  eexists ts1, _, _. split; [apply Ht1|].
  split; [apply (prethd_join_run P _ p s t ts1); [apply Hp1 | done | apply Ht1 | lia]|].
  split; [|split; [lia | done]].
  erewrite since_app; [|reflexivity]. apply joined_join_events.
Qed.

End Unstarted.

(** Two slots, one thread started: the join is called on both, the second
    time on a slot no thread was ever started in. *)
Lemma join_visits_every_slot_witness :
  let w := after (prethd_new lp64_one_thread 2 0 0) boot in
  let w1 := after (prethd_all lp64_one_thread (Some 1%positive)) w in
  ∃ ts1 r w2,
    heap w1 !! 2%positive = Some (Threads ts1) ∧
    prethd_join lp64_one_thread (Some 1%positive) w1 = Ok r w2 ∧
    joined (since w1 w2) = ts1 ∧
    length ts1 = 2%nat ∧
    (∀ j, (1 ≤ j)%nat → ts1 !! j = [None; None] !! j).
Proof.
  intros w w1.
  apply (join_visits_every_slot lp64_one_thread w w1 1%positive 2%positive
           (mk_pool None None (Some 2%positive) 2 0 0) [None; None] 1).
  - vm_compute. reflexivity.
  - reflexivity.
  - vm_compute. reflexivity.
  - reflexivity.
  - vm_compute. reflexivity.
Defined.

(** The claim that a join after a partial start touches started slots only
    fails: with two slots of which one was started, [pthread_join] is called
    on the empty second slot as well. *)
Lemma join_touches_unstarted_slot :
  ¬ (∀ (P : platform) (w w1 w2 : world) (p : block) (n k : N) (r : bool),
       pool_full w (Some p) = true →
       prethd_size (Some p) w = Ok n w →
       prethd_all P (Some p) w = Ok k w1 → k < n →
       prethd_join P (Some p) w1 = Ok r w2 →
       length (joined (since w1 w2)) = N.to_nat k ∧
       Forall is_Some (joined (since w1 w2))).
Proof.
  intros H.
  pose (w := after (prethd_new lp64_one_thread 2 0 0) boot).
  pose (w1 := after (prethd_all lp64_one_thread (Some 1%positive)) w).
  pose (w2 := after (prethd_join lp64_one_thread (Some 1%positive)) w1).
  destruct (H lp64_one_thread w w1 w2 1%positive 2 1 false) as [_ Hall];
    try (vm_compute; reflexivity).
  vm_compute in Hall.
  apply Forall_cons in Hall as [_ Hall]. apply Forall_cons in Hall as [[h Hh] _].
  discriminate.
Qed.

(** ** Arrays of primitives *)

Lemma store_run w b c c' :
  heap w !! b = Some c →
  store b c' w = Ok tt (mk_world (<[b:=c']> (heap w)) (next_block w) (next_tid w) (trace w)).
Proof. unfold store. by intros ->. Qed.

Lemma store_prim_run k w b fs i f :
  heap w !! b = Some (Prims k fs) →
  store_prim b i f w =
    Ok tt (mk_world (<[b:=Prims k (<[N.to_nat i:=f]> fs)]> (heap w))
                    (next_block w) (next_tid w) (trace w)).
Proof.
  intros Hb. unfold store_prim.
  rewrite (bind_run _ _ _ _ _ (load_run _ _ _ Hb)). apply (store_run _ _ _ _ Hb).
Qed.

Lemma prim_init_run k w b fs i :
  heap w !! b = Some (Prims k fs) → (N.to_nat i < length fs)%nat →
  prim_init k (Some b) i w =
    Ok tt (mk_world (<[b:=Prims k (<[N.to_nat i:=true]> fs)]> (heap w))
                    (next_block w) (next_tid w) (trace w ++ [ev_init k b i])).
Proof.
  intros Hb Hi. destruct (lookup_lt_is_Some_2 fs _ Hi) as [f Hf].
  unfold prim_init.
  rewrite (bind_run _ _ _ _ _ (load_prim_run _ _ _ _ _ _ Hb Hf)). cbv beta iota.
  by rewrite (bind_run _ _ _ _ _ (store_prim_run _ _ _ _ _ _ Hb)).
Qed.

Lemma prim_init_ok k a i w w1 :
  prim_init k a i w = Ok tt w1 →
  ∃ b fs, a = Some b ∧ heap w !! b = Some (Prims k fs) ∧ (N.to_nat i < length fs)%nat.
Proof.
  unfold prim_init. intros ([b f] & w' & Hl & _)%bind_ok.
  unfold load_prim in Hl. destruct a as [b'|]; [|done].
  apply bind_ok in Hl as (c & w'' & [-> Hc]%load_ok & Hl).
  destruct c as [|k' fs|]; try done.
  destruct (decide (k' = k)) as [->|]; [|done].
  destruct (fs !! N.to_nat i) eqn:Hf; [|done].
  exists b', fs. repeat split; [done|]. by apply lookup_lt_Some in Hf.
Qed.

Lemma prim_destroy_run k w b fs i :
  heap w !! b = Some (Prims k fs) → fs !! N.to_nat i = Some true →
  prim_destroy k (Some b) i w =
    Ok tt (mk_world (<[b:=Prims k (<[N.to_nat i:=false]> fs)]> (heap w))
                    (next_block w) (next_tid w) (trace w ++ [ev_destroy k b i])).
Proof.
  intros Hb Hf. unfold prim_destroy.
  rewrite (bind_run _ _ _ _ _ (load_prim_run _ _ _ _ _ _ Hb Hf)). cbv beta iota.
  by rewrite (bind_run _ _ _ _ _ (store_prim_run _ _ _ _ _ _ Hb)).
Qed.

(** The initialisation loop over elements [i], ..., [i + n - 1] of an array
    that holds them: they end up initialised, the elements before them are
    as they were. *)
Lemma init_loop_run k b n : ∀ i w fs,
  heap w !! b = Some (Prims k fs) → (N.to_nat i + n ≤ length fs)%nat →
  ∃ fs',
    for_loop n i (prim_init k (Some b)) w =
      Ok tt (mk_world (<[b:=Prims k fs']> (heap w)) (next_block w) (next_tid w)
                      (trace w ++ map (ev_init k b) (iota i n))) ∧
    length fs' = length fs ∧
    (∀ j, (N.to_nat i ≤ j < N.to_nat i + n)%nat → fs' !! j = Some true) ∧
    (∀ j, (j < N.to_nat i)%nat → fs' !! j = fs !! j).
Proof.
  induction n as [|n IH]; intros i w fs Hb Hn.
  - exists fs. simpl. rewrite insert_id, app_nil_r by done.
    split; [by destruct w|]. split; [done|]. split; [intros; lia | done].
  - assert (Hi : (N.to_nat i < length fs)%nat) by lia. simpl.
    rewrite (bind_run _ _ _ _ _ (prim_init_run _ _ _ _ _ Hb Hi)).
    match goal with |- context [for_loop _ _ _ ?w1] => set (w1' := w1) end.
    destruct (IH (i + 1) w1' (<[N.to_nat i:=true]> fs)) as (fs' & Hrun & Hlen & Hin & Hout).
    { simpl. apply lookup_insert_eq. }
    { rewrite length_insert. lia. }
    rewrite length_insert in Hlen.
    exists fs'. rewrite Hrun. simpl. rewrite insert_insert_eq, <- app_assoc.
    split; [done|]. split; [done|]. split.
    + intros j Hj. destruct (decide (j = N.to_nat i)) as [->|Hne].
      * rewrite Hout by lia. apply list_lookup_insert_eq. lia.
      * apply Hin. lia.
    + intros j Hj. rewrite Hout by lia. apply list_lookup_insert_ne. lia.
Qed.

(** An initialisation loop that returns stayed within its array. *)
Lemma init_loop_bound k b n : ∀ i w w1 fs,
  for_loop n i (prim_init k (Some b)) w = Ok tt w1 →
  heap w !! b = Some (Prims k fs) → n ≠ 0%nat →
  (N.to_nat i + n ≤ length fs)%nat.
Proof.
  induction n as [|n IH]; intros i w w1 fs Hrun Hb Hn; [done|].
  simpl in Hrun. apply bind_ok in Hrun as ([] & w' & Hstep & Hrest).
  destruct (prim_init_ok _ _ _ _ _ Hstep) as (b' & fs' & [= <-] & Hb' & Hi).
  rewrite Hb in Hb'. injection Hb' as <-.
  destruct n as [|n]; [lia|].
  rewrite (prim_init_run _ _ _ _ _ Hb Hi) in Hstep. injection Hstep as <-.
  eapply IH in Hrest; [| simpl; apply lookup_insert_eq | done].
  rewrite length_insert in Hrest. lia.
Qed.

(** The destruction loop over initialised elements. *)
Lemma destroy_loop_run k b n : ∀ i w fs,
  heap w !! b = Some (Prims k fs) →
  (∀ j, (N.to_nat i ≤ j < N.to_nat i + n)%nat → fs !! j = Some true) →
  ∃ fs',
    for_loop n i (prim_destroy k (Some b)) w =
      Ok tt (mk_world (<[b:=Prims k fs']> (heap w)) (next_block w) (next_tid w)
                      (trace w ++ map (ev_destroy k b) (iota i n))).
Proof.
  induction n as [|n IH]; intros i w fs Hb Hfs.
  - exists fs. simpl. rewrite insert_id, app_nil_r by done. by destruct w.
  - assert (Hi : fs !! N.to_nat i = Some true) by (apply Hfs; lia). simpl.
    rewrite (bind_run _ _ _ _ _ (prim_destroy_run _ _ _ _ _ Hb Hi)).
    match goal with |- context [for_loop _ _ _ ?w1] => set (w1' := w1) end.
    destruct (IH (i + 1) w1' (<[N.to_nat i:=false]> fs)) as (fs' & Hrun).
    { simpl. apply lookup_insert_eq. }
    { intros j Hj. rewrite list_lookup_insert_ne by lia. apply Hfs. lia. }
    exists fs'. rewrite Hrun. simpl. by rewrite insert_insert_eq, <- app_assoc.
Qed.

Lemma forallb_id_intro (l : list bool) :
  (∀ j, (j < length l)%nat → l !! j = Some true) → forallb id l = true.
Proof.
  intros H. apply forallb_forall. intros f Hf%list_elem_of_In.
  apply list_elem_of_lookup in Hf as [j Hj].
  pose proof (lookup_lt_Some _ _ _ Hj) as Hlt. rewrite (H j Hlt) in Hj.
  by injection Hj as <-.
Qed.

Lemma elems_fits n sz : fits n sz → elems (wrap_size (n * N.pos sz)) sz = N.to_nat n.
Proof.
  unfold fits, elems, wrap_size. intros H.
  rewrite N.mod_small by done. by rewrite N.div_mul.
Qed.

Lemma elems_le n sz : (elems (wrap_size (n * N.pos sz)) sz ≤ N.to_nat n)%nat.
Proof.
  unfold elems, wrap_size.
  assert (n * N.pos sz mod SIZE_MOD / N.pos sz ≤ n); [|lia].
  rewrite <- (N.div_mul n (N.pos sz)) at 2 by done.
  apply N.Div0.div_le_mono, N.Div0.mod_le.
Qed.

Section Arrays.
Context (P : platform).

Lemma init_muts_array n : init_muts P n = init_array P KMutex (sizeof_mutex P) n.
Proof. reflexivity. Qed.

Lemma init_conds_array n : init_conds P n = init_array P KCond (sizeof_cond P) n.
Proof. reflexivity. Qed.

Lemma des_muts_array a n : des_muts a n = des_array KMutex a n.
Proof. reflexivity. Qed.

Lemma des_conds_array a n : des_conds a n = des_array KCond a n.
Proof. reflexivity. Qed.

Lemma init_array_ok k sz n w a w1 :
  init_array P k sz n w = Ok a w1 → array_made k n w a w1.
Proof.
  unfold init_array. destruct (N.eqb_spec n 0) as [->|Hn].
  { intros [= <- <-]. exists []. rewrite app_nil_r. by destruct w. }
  intros (a' & w' & Hm & Hk)%bind_ok. unfold malloc in Hm.
  destruct (malloc_ok P (trace w) _); injection Hm as <- <-.
  2:{ injection Hk as <- <-. by eexists [_]. }
  apply bind_ok in Hk as ([] & w' & Hloop & [= <- <-]).
  pose proof (init_loop_bound _ _ _ _ _ _ _ Hloop (lookup_insert_eq _ _ _)) as Hb.
  rewrite length_replicate in Hb.
  pose proof (elems_le n sz) as Hle.
  match type of Hloop with for_loop _ _ _ ?w0 = _ =>
    destruct (init_loop_run k (next_block w) (N.to_nat n) 0 w0
                (replicate (elems (wrap_size (n * N.pos sz)) sz) false))
      as (fs & Hrun & Hlen & Hin & _)
  end.
  { simpl. apply lookup_insert_eq. }
  { rewrite length_replicate. simpl. lia. }
  rewrite Hrun in Hloop. injection Hloop as <-.
  rewrite length_replicate in Hlen.
  eexists (_ :: _). repeat split; try done. exists fs. simpl.
  rewrite insert_insert_eq, <- app_assoc.
  split; [done|]. split; [lia|].
  apply forallb_id_intro. intros j Hj. apply Hin. simpl. lia.
Qed.

(** With memory granted and a size that fits, [init_array] returns. *)
Lemma init_array_total k sz n w :
  grants P → fits n sz →
  ∃ a w1, init_array P k sz n w = Ok a w1 ∧ (n ≠ 0 → is_Some a) ∧
          trace w1 = trace w ++
            if n =? 0 then []
            else EvMalloc (wrap_size (n * N.pos sz)) (Some (next_block w))
                 :: map (ev_init k (next_block w)) (iota 0 (N.to_nat n)).
Proof.
  intros Hg Hfit. unfold init_array. destruct (N.eqb_spec n 0) as [->|Hn].
  { exists None, w. rewrite app_nil_r. by repeat split. }
  set (size := wrap_size (n * N.pos sz)).
  set (w1' := mk_world (<[next_block w:=Prims k (replicate (elems size sz) false)]> (heap w))
                       (Pos.succ (next_block w)) (next_tid w)
                       (trace w ++ [EvMalloc size (Some (next_block w))])).
  assert (Hm : malloc P size (Prims k (replicate (elems size sz) false)) w
               = Ok (Some (next_block w)) w1') by (unfold malloc; by rewrite Hg).
  rewrite (bind_run _ _ _ _ _ Hm).
  destruct (init_loop_run k (next_block w) (N.to_nat n) 0 w1'
              (replicate (elems (wrap_size (n * N.pos sz)) sz) false))
    as (fs & Hrun & _).
  { simpl. apply lookup_insert_eq. }
  { unfold size. rewrite length_replicate, elems_fits by done. simpl. lia. }
  rewrite (bind_run _ _ _ _ _ Hrun). eexists _, _. split; [reflexivity|].
  split; [eauto|]. simpl. by rewrite <- app_assoc.
Qed.

(** When the byte size of the array wraps so that the block is shorter than
    the array, the initialisation loop of [init_muts] runs past the block. *)
Lemma init_muts_short n w :
  grants P →
  wrap_size (n * N.pos (sizeof_mutex P)) / N.pos (sizeof_mutex P) < n →
  init_muts P n w = Fault.
Proof.
  intros Hg Hshort.
  destruct (init_muts P n w) as [a w1|] eqn:E; [|done].
  exfalso. unfold init_muts in E.
  destruct (N.eqb_spec n 0) as [->|Hn]; [by apply N.nlt_0_r in Hshort|].
  apply bind_ok in E as (a' & w' & Hm & E).
  unfold malloc in Hm. rewrite Hg in Hm. injection Hm as <- <-.
  apply bind_ok in E as ([] & w'' & Hloop & _).
  eapply init_loop_bound in Hloop; [|apply lookup_insert_eq|lia].
  rewrite length_replicate in Hloop. unfold elems in Hloop. lia.
Qed.

(** Destroying an array of [n] initialised primitives: every element is
    destroyed, then the block is freed.  Nothing happens for a null array. *)
Lemma des_array_run k w a n :
  a = None ∨ prims_at k w a n = true →
  des_array k a n w =
    Ok tt (mk_world (drop_array a n (heap w)) (next_block w) (next_tid w)
                    (trace w ++ des_array_events k a n)).
Proof.
  unfold des_array, des_array_events, drop_array.
  destruct a as [b|]; [|by destruct w; rewrite app_nil_r].
  intros [|Hat]; [done|]. destruct (N.ltb_spec 0 n) as [Hn|Hn].
  2:{ rewrite app_nil_r. by destruct w. }
  destruct (prims_at_lookup _ _ _ _ 0 Hat Hn) as (b' & fs & [= <-] & Hb & Hlen & _).
  destruct (destroy_loop_run k b (N.to_nat n) 0 w fs Hb) as (fs' & Hrun).
  { intros j Hj. destruct (prims_at_lookup _ _ _ _ (N.of_nat j) Hat) as
      (? & fs2 & [= <-] & Hb2 & _ & Hf); [simpl in Hj; lia|].
    rewrite Hb in Hb2. injection Hb2 as <-. by rewrite Nat2N.id in Hf. }
  rewrite (bind_run _ _ _ _ _ Hrun). simpl. rewrite lookup_insert_eq.
  by rewrite delete_insert_eq, <- app_assoc.
Qed.

(** A block of another sort than the array is still there afterwards. *)
Lemma drop_array_keep k w a n x c :
  a = None ∨ prims_at k w a n = true →
  heap w !! x = Some c → (∀ fs, c ≠ Prims k fs) →
  drop_array a n (heap w) !! x = Some c.
Proof.
  intros Ha Hx Hc. unfold drop_array. destruct a as [b|]; [|done].
  destruct (0 <? n); [|done]. destruct Ha as [|Ha]; [done|].
  unfold prims_at in Ha. destruct (heap w !! b) as [[|k' fs|]|] eqn:Hb; try done.
  apply andb_true_iff in Ha as [[->%bool_decide_eq_true _]%andb_true_iff _].
  rewrite lookup_delete_ne; [done|]. intros ->. rewrite Hb in Hx.
  injection Hx as <-. by eapply Hc.
Qed.

Lemma prims_at_ext k w w' a n :
  (∀ b, a = Some b → heap w' !! b = heap w !! b) →
  prims_at k w' a n = prims_at k w a n.
Proof. intros H. unfold prims_at. destruct a as [b|]; [|done]. by rewrite H. Qed.

End Arrays.

Lemma update_pool_run b f w s :
  heap w !! b = Some (Pool s) →
  update_pool b f w =
    Ok tt (mk_world (<[b:=Pool (f s)]> (heap w)) (next_block w) (next_tid w) (trace w)).
Proof.
  intros Hb. unfold update_pool.
  rewrite (bind_run _ _ _ _ _ (load_pool_run _ _ _ Hb)). apply (store_run _ _ _ _ Hb).
Qed.

Ltac heap_lookup :=
  repeat first
    [ rewrite lookup_insert_eq
    | rewrite lookup_insert_ne by lia
    | rewrite lookup_delete_eq
    | rewrite lookup_delete_ne by lia ].

(** Rewrite with the equations known about the heaps and block counters of
    the worlds in play, then look the block up. *)
Ltac heap_solve :=
  cbn [heap next_block next_tid trace];
  repeat (match goal with
          | H : heap ?w = _ |- context [heap ?w] => rewrite H
          | H : next_block ?w = _ |- context [next_block ?w] => rewrite H
          end; cbn [heap next_block next_tid trace]);
  heap_lookup; try reflexivity.

(** Run the [update_pool] at the head of the computation in the goal. *)
Ltac pool_step :=
  erewrite bind_run; [|apply update_pool_run; heap_solve];
  cbn [heap next_block next_tid trace].

(** Run the [init_array] at the head, naming its result and world. *)
Ltac array_step m wc Em :=
  match goal with
  | |- (init_array ?P ?k ?sz ?n ≫= _) ?w0 = _ → _ =>
      destruct (init_array P k sz n w0) as [m wc|] eqn:Em;
      [ rewrite (bind_run _ _ _ _ _ Em); apply init_array_ok in Em
      | by rewrite (bind_fault _ _ _ Em) ]
  end.

Section Construct.
Context (P : platform).

Lemma malloc_cases size c w :
  malloc P size c w =
    Ok (Some (next_block w))
       (mk_world (<[next_block w:=c]> (heap w)) (Pos.succ (next_block w)) (next_tid w)
                 (trace w ++ [EvMalloc size (Some (next_block w))])) ∨
  malloc P size c w =
    Ok NULL (mk_world (heap w) (next_block w) (next_tid w)
                      (trace w ++ [EvMalloc size NULL])).
Proof. unfold malloc. destruct (malloc_ok P (trace w) size); auto. Qed.

Lemma prethd_new_ok th mut cond w p w1 :
  prethd_new P th mut cond w = Ok (Some p) w1 → fresh_pool P th mut cond w p w1.
Proof.
  unfold prethd_new.
  change (init_muts P mut) with (init_array P KMutex (sizeof_mutex P) mut).
  change (init_conds P cond) with (init_array P KCond (sizeof_cond P) cond).
  change des_muts with (des_array KMutex). change des_conds with (des_array KCond).
  destruct (th =? 0); [done|].
  destruct (malloc_cases (N.pos (sizeof_pool P)) (Pool blank_pool) w) as [Hm|Hm];
    rewrite (bind_run _ _ _ _ _ Hm); [clear Hm|done].
  set (b := next_block w).
  do 3 pool_step. rewrite !insert_insert_eq.
  array_step m wc Em. destruct Em as (evs_m & Em).
  destruct m as [mb|];
    [destruct Em as (-> & Hmut & fs & -> & Hlen_m & Hall_m) | subst wc].
  all: cbn [heap next_block next_tid trace]; pool_step; rewrite ?insert_insert_eq.
  all: array_step c we Ec; destruct Ec as (evs_c & Ec);
    cbn [heap next_block next_tid trace] in Ec.
  all: destruct c as [cb|];
    [destruct Ec as (-> & Hcond & cs & -> & Hlen_c & Hall_c) | subst we].
  all: cbn [heap next_block next_tid trace]; pool_step.
  all: match goal with
       | |- (malloc ?P ?size ?c ≫= _) ?w0 = _ → _ =>
           destruct (malloc_cases size c w0) as [Hm|Hm];
           rewrite (bind_run _ _ _ _ _ Hm); clear Hm
       end.
  all: cbn [heap next_block next_tid trace]; pool_step; rewrite ?insert_insert_eq.
  all: erewrite bind_run; [|apply load_pool_run; heap_solve]; cbn [threads set_threads].
  all: try (intros H; repeat (apply bind_ok in H as (? & ? & _ & H)); discriminate).
  all: intros [= <- <-].
  all: eexists _, _; cbn [heap next_block next_tid trace len mlen clen muts conds
                          threads set_threads set_conds set_muts set_clen set_mlen
                          set_len blank_pool].
  all: split; [reflexivity|]; split; [reflexivity|].
  all: split; [heap_solve|].
  all: do 4 (split; [reflexivity|]).
  all: split; [heap_solve|].
  all: cbn [len mlen clen muts conds threads set_threads set_conds set_muts set_clen
            set_mlen set_len blank_pool].
  all: repeat split; try done.
  all: first
    [ by left
    | right; unfold prims_at; heap_solve;
      rewrite bool_decide_eq_true_2 by done;
      match goal with H : length ?l = _ |- context [length ?l] => rewrite H end;
      rewrite N2Nat.id, N.eqb_refl; done ].
Qed.

End Construct.

Section ConstructTotal.
Context (P : platform).

Lemma malloc_granted size c w :
  grants P →
  malloc P size c w =
    Ok (Some (next_block w))
       (mk_world (<[next_block w:=c]> (heap w)) (Pos.succ (next_block w)) (next_tid w)
                 (trace w ++ [EvMalloc size (Some (next_block w))])).
Proof. intros Hg. unfold malloc. by rewrite Hg. Qed.

(** With memory granted and array sizes that fit, [prethd_new] returns a
    pool, and the pool has an array wherever one was asked for. *)
Lemma prethd_new_total th mut cond w :
  th ≠ 0 → grants P → fits mut (sizeof_mutex P) → fits cond (sizeof_cond P) →
  ∃ p w1 s,
    prethd_new P th mut cond w = Ok (Some p) w1 ∧
    heap w1 !! p = Some (Pool s) ∧
    (mut ≠ 0 → is_Some (muts s)) ∧ (cond ≠ 0 → is_Some (conds s)).
Proof.
  intros Hth Hg Hfm Hfc. unfold prethd_new.
  change (init_muts P mut) with (init_array P KMutex (sizeof_mutex P) mut).
  change (init_conds P cond) with (init_array P KCond (sizeof_cond P) cond).
  apply N.eqb_neq in Hth as ->.
  rewrite (bind_run _ _ _ _ _ (malloc_granted _ _ _ Hg)).
  set (b := next_block w).
  do 3 pool_step. rewrite !insert_insert_eq.
  match goal with |- context [(init_array _ _ _ _ ≫= _) ?w0] =>
    destruct (init_array_total P KMutex (sizeof_mutex P) mut w0 Hg Hfm)
      as (m & wc & Em & Hm & _)
  end.
  rewrite (bind_run _ _ _ _ _ Em). apply init_array_ok in Em as (evs_m & Em).
  destruct m as [mb|];
    [destruct Em as (-> & Hmut & fs & -> & Hlen_m & Hall_m) | subst wc].
  all: cbn [heap next_block next_tid trace]; pool_step; rewrite ?insert_insert_eq.
  all: match goal with |- context [(init_array _ _ _ _ ≫= _) ?w0] =>
    destruct (init_array_total P KCond (sizeof_cond P) cond w0 Hg Hfc)
      as (c & we & Ec & Hc & _)
  end.
  all: rewrite (bind_run _ _ _ _ _ Ec); apply init_array_ok in Ec as (evs_c & Ec);
    cbn [heap next_block next_tid trace] in Ec.
  all: destruct c as [cb|];
    [destruct Ec as (-> & Hcond & cs & -> & Hlen_c & Hall_c) | subst we].
  all: cbn [heap next_block next_tid trace]; pool_step.
  all: rewrite (bind_run _ _ _ _ _ (malloc_granted _ _ _ Hg)).
  all: cbn [heap next_block next_tid trace]; pool_step; rewrite ?insert_insert_eq.
  all: erewrite bind_run; [|apply load_pool_run; heap_solve]; cbn [threads set_threads].
  all: eexists _, _, _; split; [reflexivity|]; split; [heap_solve|].
  all: cbn [len mlen clen muts conds threads set_threads set_conds set_muts set_clen
            set_mlen set_len blank_pool]; split; done.
Qed.

End ConstructTotal.

(** ** Release *)

Lemma free_run w b c :
  heap w !! b = Some c →
  free (Some b) w =
    Ok tt (mk_world (delete b (heap w)) (next_block w) (next_tid w) (trace w ++ [EvFree b])).
Proof. unfold free. by intros ->. Qed.

(** [prethd_free] on a pool whose arrays are either absent or fully
    initialised: the primitives are destroyed, then the arrays, the thread
    array and the pool object are freed, in that order. *)
Lemma prethd_free_run w p s t ts :
  heap w !! p = Some (Pool s) → threads s = Some t →
  heap w !! t = Some (Threads ts) →
  muts s = None ∨ mutexes_at w (muts s) (mlen s) = true →
  conds s = None ∨ conds_at w (conds s) (clen s) = true →
  prethd_free (Some p) w =
    Ok tt (mk_world
             (delete p (delete t (drop_array (conds s) (clen s)
                                    (drop_array (muts s) (mlen s) (heap w)))))
             (next_block w) (next_tid w)
             (trace w ++ des_muts_events (muts s) (mlen s) ++
                des_conds_events (conds s) (clen s) ++ [EvFree t; EvFree p])).
Proof.
  intros Hp Hts Ht Hm Hc. unfold prethd_free.
  change des_muts with (des_array KMutex). change des_conds with (des_array KCond).
  change des_muts_events with (des_array_events KMutex).
  change des_conds_events with (des_array_events KCond).
  rewrite (bind_run _ _ _ _ _ (load_pool_run _ _ _ Hp)).
  rewrite (bind_run _ _ _ _ _ (des_array_run _ _ _ _ Hm)).
  set (wa := mk_world (drop_array (muts s) (mlen s) (heap w)) _ _ _).
  assert (Hpa : heap wa !! p = Some (Pool s)) by by eapply drop_array_keep.
  assert (Hta : heap wa !! t = Some (Threads ts)) by by eapply drop_array_keep.
  assert (Hca : conds s = None ∨ conds_at wa (conds s) (clen s) = true).
  { destruct Hc as [|Hc]; [by left|right]. rewrite <- Hc. apply prims_at_ext.
    intros cb Hcb. rewrite Hcb in Hc. unfold prims_at in Hc.
    destruct (heap w !! cb) as [[|k' cs|]|] eqn:Hb; try done.
    apply andb_true_iff in Hc as [[->%bool_decide_eq_true _]%andb_true_iff _].
    by eapply drop_array_keep. }
  rewrite (bind_run _ _ _ _ _ (load_pool_run _ _ _ Hpa)).
  rewrite (bind_run _ _ _ _ _ (des_array_run _ _ _ _ Hca)).
  set (wb := mk_world (drop_array (conds s) (clen s) (heap wa)) _ _ _).
  assert (Hpb : heap wb !! p = Some (Pool s)) by by eapply drop_array_keep.
  assert (Htb : heap wb !! t = Some (Threads ts)) by by eapply drop_array_keep.
  rewrite (bind_run _ _ _ _ _ (load_pool_run _ _ _ Hpb)), Hts.
  rewrite (bind_run _ _ _ _ _ (free_run _ _ _ Htb)).
  erewrite free_run.
  2:{ simpl. rewrite lookup_delete_ne; [exact Hpb|]. intros ->. congruence. }
  simpl. by rewrite <- !app_assoc.
Qed.

(** ** Construction *)

Section Construction.
Context (P : platform).

Lemma sizes_of_pool w p s :
  heap w !! p = Some (Pool s) →
  prethd_size (Some p) w = Ok (len s) w ∧
  prethd_mutex_size (Some p) w = Ok (mlen s) w ∧
  prethd_cond_size (Some p) w = Ok (clen s) w.
Proof.
  intros Hp. unfold prethd_size, prethd_mutex_size, prethd_cond_size.
  by rewrite !(bind_run _ _ _ _ _ (load_pool_run _ _ _ Hp)).
Qed.

(** C3: with no thread asked for, [prethd_new] returns the null pointer,
    whatever the other two counts, and leaves the world alone.  With at least
    one thread asked for, memory granted for every request and arrays of
    mutexes and condition variables whose byte sizes [size_t] can hold, it
    returns a pool on which the three size accessors report exactly the
    counts asked for; if the byte size of the thread array fits as well, all
    three arrays of the pool are fully allocated. *)
Theorem construction_validity (th mut cond : N) (w : world) :
  prethd_new P 0 mut cond w = Ok NULL w ∧
  (1 ≤ th → grants P → fits mut (sizeof_mutex P) → fits cond (sizeof_cond P) →
   ∃ p w1,
     prethd_new P th mut cond w = Ok (Some p) w1 ∧
     valid_pool w1 (Some p) = true ∧
     prethd_size (Some p) w1 = Ok th w1 ∧
     prethd_mutex_size (Some p) w1 = Ok mut w1 ∧
     prethd_cond_size (Some p) w1 = Ok cond w1 ∧
     (fits th (sizeof_thread P) → pool_full w1 (Some p) = true)).
Proof.
  split; [done|]. intros Hth Hg Hfm Hfc.
  destruct (prethd_new_total P th mut cond w) as (p & w1 & s' & Hnew & Hp' & Hms & Hcs);
    [lia|done..|].
  destruct (prethd_new_ok _ _ _ _ _ _ _ Hnew) as
    (s & t & _ & _ & Hp & Hlen & Hmlen & Hclen & Hts & Ht & Hm & _ & Hc & _).
  rewrite Hp in Hp'. injection Hp' as <-.
  exists p, w1. split; [done|]. split; [unfold valid_pool; by rewrite Hp|].
  destruct (sizes_of_pool _ _ _ Hp) as (-> & -> & ->).
  rewrite Hlen, Hmlen, Hclen. do 3 (split; [done|]).
  intros Hft. unfold pool_full. rewrite Hp, Hmlen, Hclen, Hlen.
  apply andb_true_iff. split; [apply andb_true_iff; split|].
  - destruct Hm as [Hm|]; [|done]. rewrite Hm. simpl. apply N.eqb_eq.
    destruct (N.eq_dec mut 0) as [|Hne]; [done|].
    destruct (Hms Hne) as [? Hsome]. congruence.
  - destruct Hc as [Hc|]; [|done]. rewrite Hc. simpl. apply N.eqb_eq.
    destruct (N.eq_dec cond 0) as [|Hne]; [done|].
    destruct (Hcs Hne) as [? Hsome]. congruence.
  - unfold threads_at. rewrite Hts, Ht, length_replicate, elems_fits by done.
    apply N.eqb_eq. lia.
Qed.

(** C10: on every pool [prethd_new] returned, [prethd_free] returns without
    a fault.  A count of zero left the corresponding array null; [des_muts]
    and [des_conds] do nothing at all on a null array; and [prethd_free]
    still frees the thread array and then the pool object: the trace gains
    the destruction of the arrays that exist followed by exactly these two
    frees, and neither block is live afterwards. *)
Theorem free_copes_with_absent_arrays (th mut cond : N) (w w1 : world) (p : block) :
  prethd_new P th mut cond w = Ok (Some p) w1 →
  ∃ s t w2,
    heap w1 !! p = Some (Pool s) ∧ threads s = Some t ∧
    (mut = 0 → muts s = NULL ∧ des_muts_events (muts s) mut = []) ∧
    (cond = 0 → conds s = NULL ∧ des_conds_events (conds s) cond = []) ∧
    (∀ n w', des_muts NULL n w' = Ok tt w') ∧
    (∀ n w', des_conds NULL n w' = Ok tt w') ∧
    prethd_free (Some p) w1 = Ok tt w2 ∧
    heap w2 !! p = None ∧ heap w2 !! t = None ∧
    trace w2 = trace w1 ++ des_muts_events (muts s) mut ++
                 des_conds_events (conds s) cond ++ [EvFree t; EvFree p].
Proof.
  intros Hnew.
  destruct (prethd_new_ok _ _ _ _ _ _ _ Hnew) as
    (s & t & _ & _ & Hp & Hlen & Hmlen & Hclen & Hts & Ht & Hm & Hm0 & Hc & Hc0).
  rewrite <- Hmlen in Hm. rewrite <- Hclen in Hc.
  eexists s, t, _. split; [done|]. split; [done|].
  split; [intros H0; by rewrite (Hm0 H0)|]. split; [intros H0; by rewrite (Hc0 H0)|].
  split; [done|]. split; [done|].
  split; [apply (prethd_free_run _ _ _ _ _ Hp Hts Ht Hm Hc)|].
  assert (Hne : p ≠ t) by (intros ->; congruence).
  simpl. rewrite lookup_delete_eq, lookup_delete_ne, lookup_delete_eq by done.
  by rewrite Hmlen, Hclen.
Qed.

End Construction.

(** Three threads, two mutexes and one condition variable on the sample
    platform. *)
Lemma construction_validity_witness :
  prethd_new lp64 0 2 1 boot = Ok NULL boot ∧
  ∃ p w1,
    prethd_new lp64 3 2 1 boot = Ok (Some p) w1 ∧
    valid_pool w1 (Some p) = true ∧
    prethd_size (Some p) w1 = Ok 3 w1 ∧
    prethd_mutex_size (Some p) w1 = Ok 2 w1 ∧
    prethd_cond_size (Some p) w1 = Ok 1 w1 ∧
    (fits 3 (sizeof_thread lp64) → pool_full w1 (Some p) = true).
Proof.
  destruct (construction_validity lp64 3 2 1 boot) as [_ H].
  split; [reflexivity|]. apply H.
  - lia.
  - intros tr n. reflexivity.
  - vm_compute. reflexivity.
  - vm_compute. reflexivity.
Defined.

(** Three threads and no primitive at all: the pool is freed by two calls
    of [free]. *)
Lemma free_copes_with_absent_arrays_witness :
  let w1 := after (prethd_new lp64 3 0 0) boot in
  ∃ s t w2,
    heap w1 !! 1%positive = Some (Pool s) ∧ threads s = Some t ∧
    (0 = 0 → muts s = NULL ∧ des_muts_events (muts s) 0 = []) ∧
    (0 = 0 → conds s = NULL ∧ des_conds_events (conds s) 0 = []) ∧
    (∀ n w', des_muts NULL n w' = Ok tt w') ∧
    (∀ n w', des_conds NULL n w' = Ok tt w') ∧
    prethd_free (Some 1%positive) w1 = Ok tt w2 ∧
    heap w2 !! 1%positive = None ∧ heap w2 !! t = None ∧
    trace w2 = trace w1 ++ des_muts_events (muts s) 0 ++
                 des_conds_events (conds s) 0 ++ [EvFree t; EvFree 1%positive].
Proof.
  intros w1.
  apply (free_copes_with_absent_arrays lp64 3 0 0 boot w1 1%positive).
  vm_compute. reflexivity.
Defined.

(** ** A mutex array that could not be allocated *)

(** C1, on the code: one thread and one mutex are asked for and the
    platform has no memory for the mutex array.  [init_muts] returns null,
    [prethd_new] stores it and goes on: it returns a pool that counts one
    mutex and has no mutex array.  Nothing was released, and locking mutex 0
    of that pool, an index within range, dereferences the null array. *)
Theorem new_returns_pool_without_mutexes :
  let w1 := after (prethd_new lp64_no_mutex 1 1 0) boot in
  prethd_new lp64_no_mutex 1 1 0 boot = Ok (Some 1%positive) w1 ∧
  heap w1 !! 1%positive = Some (Pool (mk_pool NULL NULL (Some 2%positive) 1 1 0)) ∧
  valid_pool w1 (Some 1%positive) = true ∧
  pool_full w1 (Some 1%positive) = false ∧
  trace w1 = [EvMalloc 48 (Some 1%positive); EvMalloc 40 NULL;
              EvMalloc 8 (Some 2%positive)] ∧
  prethd_mutex_size (Some 1%positive) w1 = Ok 1 w1 ∧
  prethd_lock lp64_no_mutex (Some 1%positive) 0 w1 = Fault.
Proof. vm_compute. repeat split. Qed.

(** ** The counts never change *)

Lemma load_prim_ok k a i w r w1 : load_prim k a i w = Ok r w1 → w1 = w.
Proof.
  unfold load_prim. destruct a as [b|]; [|done].
  intros (c & w' & [-> _]%load_ok & Hc)%bind_ok.
  destruct c as [|k' fs|]; try done.
  destruct (decide (k' = k)); [|done].
  destruct (fs !! N.to_nat i); [|done]. by injection Hc as _ ->.
Qed.

Lemma pools_kept_heap w w1 : heap w1 = heap w → pools_kept w w1.
Proof. intros H x s. by rewrite H. Qed.

Lemma pools_kept_trans w w1 w2 : pools_kept w w1 → pools_kept w1 w2 → pools_kept w w2.
Proof. intros H1 H2 x s Hx. by apply H2, H1. Qed.

Section Counts.
Context (P : platform).

(** A call on one primitive reads the heap and logs the call. *)
Ltac prim_call_heap :=
  intros ([b f] & w' & ->%load_prim_ok & Hk)%bind_ok;
  destruct f; [|done]; unfold answer in Hk; by injection Hk as _ <-.

Lemma pthread_mutex_lock_heap a i w r w1 :
  pthread_mutex_lock P a i w = Ok r w1 → heap w1 = heap w.
Proof. unfold pthread_mutex_lock. prim_call_heap. Qed.

Lemma pthread_mutex_unlock_heap a i w r w1 :
  pthread_mutex_unlock P a i w = Ok r w1 → heap w1 = heap w.
Proof. unfold pthread_mutex_unlock. prim_call_heap. Qed.

Lemma pthread_cond_signal_heap a i w r w1 :
  pthread_cond_signal P a i w = Ok r w1 → heap w1 = heap w.
Proof. unfold pthread_cond_signal. prim_call_heap. Qed.

Lemma pthread_cond_broadcast_heap a i w r w1 :
  pthread_cond_broadcast P a i w = Ok r w1 → heap w1 = heap w.
Proof. unfold pthread_cond_broadcast. prim_call_heap. Qed.

Lemma pthread_cond_wait_heap ca c ma m w r w1 :
  pthread_cond_wait P ca c ma m w = Ok r w1 → heap w1 = heap w.
Proof.
  unfold pthread_cond_wait.
  intros ([cb cf] & w' & ->%load_prim_ok & Hk)%bind_ok.
  apply bind_ok in Hk as ([mb mf] & w' & ->%load_prim_ok & Hk).
  destruct (cf && mf); [|done]. unfold answer in Hk. by injection Hk as _ <-.
Qed.

Lemma pthread_create_kept a i w rc w1 :
  pthread_create P a i w = Ok rc w1 → pools_kept w w1.
Proof.
  unfold pthread_create. destruct a as [b|]; [|done].
  intros (c & w' & [-> Hb]%load_ok & Hc)%bind_ok.
  destruct c as [| |ts]; try done.
  destruct (decide (N.to_nat i < length ts)%nat); [|done].
  destruct (create_rc P (trace w) b i =? 0)%Z; injection Hc as _ <-.
  - intros x s Hx. simpl. rewrite lookup_insert_ne; [done|]. intros ->. congruence.
  - by apply pools_kept_heap.
Qed.

Lemma all_loop_kept a n : ∀ i ret w r w1,
  all_loop P a n i ret w = Ok r w1 → pools_kept w w1.
Proof.
  induction n as [|n IH]; intros i ret w r w1; simpl.
  - intros [= _ <-]. by apply pools_kept_heap.
  - intros (rc & w' & Hc%pthread_create_kept & Hk)%bind_ok.
    destruct (rc =? 0)%Z.
    + eapply pools_kept_trans; [done|]. by eapply IH.
    + by injection Hk as _ <-.
Qed.

(** Whatever the state of the pool, an operation that returns leaves every
    pool object as it was. *)
Lemma run_op_kept p o w w1 : run_op P (Some p) o w = Ok tt w1 → pools_kept w w1.
Proof.
  destruct o; simpl; intros (r & w' & Hop & [= <-])%bind_ok;
    apply bind_ok in Hop as (s & w'' & [-> _]%load_pool_ok & Hop).
  - by eapply all_loop_kept.
  - apply bind_ok in Hop as (chk & w'' & Hj & [= _ <-]).
    apply join_loop_frame in Hj as (Hh & _). by apply pools_kept_heap.
  - destruct (mlen s <=? i); [injection Hop as _ <-; by apply pools_kept_heap|].
    apply bind_ok in Hop as (rc & w'' & Hh%pthread_mutex_lock_heap & [= _ <-]).
    by apply pools_kept_heap.
  - destruct (mlen s <=? i); [injection Hop as _ <-; by apply pools_kept_heap|].
    apply bind_ok in Hop as (rc & w'' & Hh%pthread_mutex_unlock_heap & [= _ <-]).
    by apply pools_kept_heap.
  - destruct ((clen s <=? c) || (mlen s <=? m))%bool;
      [injection Hop as _ <-; by apply pools_kept_heap|].
    apply bind_ok in Hop as (rc & w'' & Hh%pthread_cond_wait_heap & [= _ <-]).
    by apply pools_kept_heap.
  - destruct (clen s <=? i); [injection Hop as _ <-; by apply pools_kept_heap|].
    apply bind_ok in Hop as (rc & w'' & Hh%pthread_cond_signal_heap & [= _ <-]).
    by apply pools_kept_heap.
  - destruct (clen s <=? i); [injection Hop as _ <-; by apply pools_kept_heap|].
    apply bind_ok in Hop as (rc & w'' & Hh%pthread_cond_broadcast_heap & [= _ <-]).
    by apply pools_kept_heap.
Qed.

Lemma run_ops_kept p os : ∀ w w1,
  run_ops P (Some p) os w = Ok tt w1 → pools_kept w w1.
Proof.
  induction os as [|o os IH]; intros w w1; simpl.
  - intros [= <-]. by apply pools_kept_heap.
  - intros ([] & w' & Ho%run_op_kept & Hos%IH)%bind_ok.
    by eapply pools_kept_trans.
Qed.

End Counts.

Lemma pool_full_heap w w1 th : heap w1 = heap w → pool_full w1 th = pool_full w th.
Proof.
  intros H. unfold pool_full, prims_at, threads_at. destruct th as [p|]; [|done].
  by rewrite H.
Qed.

Lemma pool_full_pool w p :
  pool_full w (Some p) = true → ∃ s, heap w !! p = Some (Pool s).
Proof. unfold pool_full. destruct (heap w !! p) as [[s| |]|]; try done. eauto. Qed.

(** Writing thread handles into the thread array leaves a full pool full. *)
Lemma pool_full_threads_update w p t ts ts' nb tid tr :
  pool_full w (Some p) = true →
  heap w !! t = Some (Threads ts) → length ts' = length ts →
  pool_full (mk_world (<[t:=Threads ts']> (heap w)) nb tid tr) (Some p) = true.
Proof.
  intros Hfull Ht Hlen. destruct (pool_full_pool _ _ Hfull) as [s Hp].
  assert (Hne : t ≠ p) by (intros ->; congruence).
  rewrite <- Hfull. unfold pool_full. simpl. rewrite lookup_insert_ne, Hp by done.
  assert (Hprims : ∀ k a n,
    prims_at k (mk_world (<[t:=Threads ts']> (heap w)) nb tid tr) a n = prims_at k w a n).
  { intros k a n. unfold prims_at. destruct a as [b|]; [|done]. simpl.
    destruct (decide (t = b)) as [<-|Hb].
    - by rewrite lookup_insert_eq, Ht.
    - by rewrite lookup_insert_ne. }
  rewrite !Hprims. f_equal. unfold threads_at. destruct (threads s) as [b|]; [|done].
  simpl. destruct (decide (t = b)) as [<-|Hb].
  - by rewrite lookup_insert_eq, Ht, Hlen.
  - by rewrite lookup_insert_ne.
Qed.

Section CountsTotal.
Context (P : platform).

Lemma pthread_cond_wait_run w cb cs c mb ms m :
  heap w !! cb = Some (Conds cs) → cs !! N.to_nat c = Some true →
  heap w !! mb = Some (Mutexes ms) → ms !! N.to_nat m = Some true →
  pthread_cond_wait P (Some cb) c (Some mb) m w =
    Ok (wait_rc P (trace w) cb c mb m)
       (log (EvWait cb c mb m (wait_rc P (trace w) cb c mb m)) w).
Proof.
  intros Hcb Hc Hmb Hm. unfold pthread_cond_wait.
  rewrite (bind_run _ _ _ _ _ (load_prim_run _ _ _ _ _ _ Hcb Hc)). cbv beta iota.
  by rewrite (bind_run _ _ _ _ _ (load_prim_run _ _ _ _ _ _ Hmb Hm)).
Qed.

Lemma then_unit {A} (c : M A) (Q : world → Prop) w :
  (∃ r w1, c w = Ok r w1 ∧ Q w1) → ∃ w1, (c ≫= λ _, mret tt) w = Ok tt w1 ∧ Q w1.
Proof. intros (r & w1 & Hc & HQ). exists w1. by rewrite (bind_run _ _ _ _ _ Hc). Qed.

(** On a pool whose arrays are fully allocated no operation faults, and the
    pool is as fully allocated afterwards. *)
Lemma run_op_total p o w :
  pool_full w (Some p) = true →
  ∃ w1, run_op P (Some p) o w = Ok tt w1 ∧ pool_full w1 (Some p) = true.
Proof.
  intros Hfull. destruct (pool_full_pool _ _ Hfull) as [s Hp].
  destruct (pool_full_inv _ _ _ Hp Hfull) as (Hm & Hc & Ht).
  destruct (threads_at_lookup _ _ _ Ht) as (t & ts & Hts & Htb & Hlen).
  pose proof (load_pool_run _ _ _ Hp) as Hs.
  assert (Hlog : ∀ e, pool_full (log e w) (Some p) = true)
    by (intros e; by rewrite (pool_full_heap w)).
  destruct o; cbn [run_op]; apply then_unit.
  - destruct (prethd_all_run P w p t s ts Hp Hts Htb Hlen) as
      (k & ts' & tail & Hrun & _ & Hlen' & _).
    eexists _, _. split; [exact Hrun|]. by eapply pool_full_threads_update.
  - eexists _, _. split; [exact (prethd_join_run P w p s t ts Hp Hts Htb Hlen)|].
    by rewrite (pool_full_heap w).
  - unfold prethd_lock. rewrite (bind_run _ _ _ _ _ Hs).
    destruct (N.leb_spec (mlen s) i) as [Hi|Hi]; [by exists false, w|].
    destruct (prims_at_lookup _ _ _ _ _ Hm Hi) as (mb & ms & -> & Hms & _ & Hf).
    rewrite (bind_run _ _ _ _ _ (pthread_mutex_lock_run P _ _ _ _ Hms Hf)). eauto.
  - unfold prethd_unlock. rewrite (bind_run _ _ _ _ _ Hs).
    destruct (N.leb_spec (mlen s) i) as [Hi|Hi]; [by exists false, w|].
    destruct (prims_at_lookup _ _ _ _ _ Hm Hi) as (mb & ms & -> & Hms & _ & Hf).
    rewrite (bind_run _ _ _ _ _ (pthread_mutex_unlock_run P _ _ _ _ Hms Hf)). eauto.
  - unfold prethd_wait. rewrite (bind_run _ _ _ _ _ Hs).
    destruct (N.leb_spec (clen s) c) as [Hi|Hi]; [by exists false, w|].
    destruct (N.leb_spec (mlen s) m) as [Hj|Hj]; [by exists false, w|]. cbn [orb].
    destruct (prims_at_lookup _ _ _ _ _ Hm Hj) as (mb & ms & -> & Hms & _ & Hf).
    destruct (prims_at_lookup _ _ _ _ _ Hc Hi) as (cb & cs & -> & Hcs & _ & Hg).
    rewrite (bind_run _ _ _ _ _ (pthread_cond_wait_run _ _ _ _ _ _ _ Hcs Hg Hms Hf)).
    eauto.
  - unfold prethd_signal. rewrite (bind_run _ _ _ _ _ Hs).
    destruct (N.leb_spec (clen s) i) as [Hi|Hi]; [by exists false, w|].
    destruct (prims_at_lookup _ _ _ _ _ Hc Hi) as (cb & cs & -> & Hcs & _ & Hg).
    rewrite (bind_run _ _ _ _ _ (pthread_cond_signal_run P _ _ _ _ Hcs Hg)). eauto.
  - unfold prethd_broad. rewrite (bind_run _ _ _ _ _ Hs).
    destruct (N.leb_spec (clen s) i) as [Hi|Hi]; [by exists false, w|].
    destruct (prims_at_lookup _ _ _ _ _ Hc Hi) as (cb & cs & -> & Hcs & _ & Hg).
    rewrite (bind_run _ _ _ _ _ (pthread_cond_broadcast_run P _ _ _ _ Hcs Hg)). eauto.
Qed.

Lemma run_ops_total p os : ∀ w,
  pool_full w (Some p) = true →
  ∃ w1, run_ops P (Some p) os w = Ok tt w1 ∧ pool_full w1 (Some p) = true.
Proof.
  induction os as [|o os IH]; intros w Hfull; simpl; [by exists w|].
  destruct (run_op_total p o w Hfull) as (w' & Ho & Hfull').
  destruct (IH w' Hfull') as (w1 & Hos & Hfull1).
  exists w1. by rewrite (bind_run _ _ _ _ _ Ho).
Qed.

(** C9: no sequence of starts, joins, locks, unlocks, waits, signals and
    broadcasts changes the three counts of a pool.  Whatever the pool, if
    the sequence returns then the pool object is as it was, and the three
    size accessors answer after the sequence what they answered before it;
    and on a pool whose arrays are fully allocated the sequence does
    return. *)
Theorem counts_are_immutable (w : world) (p : block) (s : pre_threads_t)
    (os : list op) :
  heap w !! p = Some (Pool s) →
  (prethd_size (Some p) w = Ok (len s) w ∧
   prethd_mutex_size (Some p) w = Ok (mlen s) w ∧
   prethd_cond_size (Some p) w = Ok (clen s) w) ∧
  (∀ w1, run_ops P (Some p) os w = Ok tt w1 →
     heap w1 !! p = Some (Pool s) ∧
     prethd_size (Some p) w1 = Ok (len s) w1 ∧
     prethd_mutex_size (Some p) w1 = Ok (mlen s) w1 ∧
     prethd_cond_size (Some p) w1 = Ok (clen s) w1) ∧
  (pool_full w (Some p) = true →
     ∃ w1, run_ops P (Some p) os w = Ok tt w1 ∧ pool_full w1 (Some p) = true).
Proof.
  intros Hp. split; [by apply sizes_of_pool|]. split.
  - intros w1 Hrun. apply run_ops_kept in Hrun. specialize (Hrun p s Hp).
    split; [done|]. by apply sizes_of_pool.
  - apply run_ops_total.
Qed.

End CountsTotal.

(** Start three threads, lock and unlock mutex 1, wait, signal, broadcast,
    lock a mutex that does not exist, join. *)
Lemma counts_are_immutable_witness :
  let w := after (prethd_new lp64 3 2 1) boot in
  let os := [OpAll; OpLock 1; OpUnlock 1; OpLock 0; OpWait 0 0; OpSignal 0;
             OpBroad 0; OpLock 7; OpJoin] in
  let w1 := after (run_ops lp64 (Some 1%positive) os) w in
  (prethd_size (Some 1%positive) w = Ok 3 w ∧
   prethd_mutex_size (Some 1%positive) w = Ok 2 w ∧
   prethd_cond_size (Some 1%positive) w = Ok 1 w) ∧
  (prethd_size (Some 1%positive) w1 = Ok 3 w1 ∧
   prethd_mutex_size (Some 1%positive) w1 = Ok 2 w1 ∧
   prethd_cond_size (Some 1%positive) w1 = Ok 1 w1) ∧
  ∃ w2, run_ops lp64 (Some 1%positive) os w = Ok tt w2 ∧
        pool_full w2 (Some 1%positive) = true.
Proof.
  intros w os w1.
  destruct (counts_are_immutable lp64 w 1%positive
              (mk_pool (Some 2%positive) (Some 3%positive) (Some 4%positive) 3 2 1) os)
    as (Hbefore & Hafter & Htotal); [vm_compute; reflexivity|].
  split; [exact Hbefore|]. split.
  - apply (Hafter w1). vm_compute. reflexivity.
  - apply Htotal. vm_compute. reflexivity.
Defined.

(** ** What an array initialiser leaves *)

Section ArraysExact.
Context (P : platform).

(** A returning [init_array], with its trace. *)
Lemma init_array_exact k sz n w a w1 :
  init_array P k sz n w = Ok a w1 →
  ∃ fs, w1 = init_array_world k sz n a fs w ∧
        (∀ b, a = Some b → b = next_block w ∧ n ≠ 0 ∧
                length fs = N.to_nat n ∧ forallb id fs = true).
Proof.
  unfold init_array, init_array_world, init_array_events.
  destruct (N.eqb_spec n 0) as [->|Hn].
  { intros [= <- <-]. exists []. rewrite app_nil_r. split; [by destruct w|done]. }
  intros (a' & w' & Hm & Hk)%bind_ok. unfold malloc in Hm.
  destruct (malloc_ok P (trace w) _); injection Hm as <- <-.
  2:{ injection Hk as <- <-. by exists []. }
  apply bind_ok in Hk as ([] & w' & Hloop & [= <- <-]).
  pose proof (init_loop_bound _ _ _ _ _ _ _ Hloop (lookup_insert_eq _ _ _)) as Hb.
  rewrite length_replicate in Hb.
  pose proof (elems_le n sz) as Hle.
  match type of Hloop with for_loop _ _ _ ?w0 = _ =>
    destruct (init_loop_run k (next_block w) (N.to_nat n) 0 w0
                (replicate (elems (wrap_size (n * N.pos sz)) sz) false))
      as (fs & Hrun & Hlen & Hin & _)
  end.
  { simpl. apply lookup_insert_eq. }
  { rewrite length_replicate. simpl. lia. }
  rewrite Hrun in Hloop. injection Hloop as <-.
  rewrite length_replicate in Hlen.
  exists fs. simpl. rewrite insert_insert_eq, <- app_assoc. split; [done|].
  intros b [= <-]. split; [done|]. split; [done|]. split; [lia|].
  apply forallb_id_intro. intros j Hj. apply Hin. simpl. lia.
Qed.

(** With a size that fits, [init_array] returns whatever malloc answers. *)
Lemma init_array_returns k sz n w :
  fits n sz → ∃ a w1, init_array P k sz n w = Ok a w1.
Proof.
  intros Hfit. unfold init_array. destruct (N.eqb_spec n 0) as [->|Hn]; [by eauto|].
  set (size := wrap_size (n * N.pos sz)).
  destruct (malloc_cases P size (Prims k (replicate (elems size sz) false)) w) as [Hm|Hm];
    rewrite (bind_run _ _ _ _ _ Hm); [|by eauto].
  match goal with |- context [(for_loop _ _ _ ≫= _) ?w0] =>
    destruct (init_loop_run k (next_block w) (N.to_nat n) 0 w0
                (replicate (elems size sz) false)) as (fs & Hrun & _)
  end.
  { simpl. apply lookup_insert_eq. }
  { unfold size. rewrite length_replicate, elems_fits by done. simpl. lia. }
  rewrite (bind_run _ _ _ _ _ Hrun). eauto.
Qed.

End ArraysExact.

(** ** What a successful construction leaves *)

(** Run the [init_array] at the head, with its exact world. *)
Ltac array_exact m fm Em :=
  match goal with
  | |- (init_array ?P ?k ?sz ?n ≫= _) ?w0 = _ → _ =>
      let wc := fresh "wc" in
      destruct (init_array P k sz n w0) as [m wc|] eqn:Em;
      [ rewrite (bind_run _ _ _ _ _ Em);
        apply init_array_exact in Em as (fm & -> & Em)
      | by rewrite (bind_fault _ _ _ Em) ]
  end.

Ltac world_simpl :=
  unfold init_array_world; cbn [heap next_block next_tid trace].

Section Built.
Context (P : platform).

(** The rollback of [prethd_new] on a pool whose arrays are absent or fully
    initialised. *)
Lemma rollback_run w b s mut cond :
  heap w !! b = Some (Pool s) →
  muts s = None ∨ mutexes_at w (muts s) mut = true →
  conds s = None ∨ conds_at w (conds s) cond = true →
  (des_muts (muts s) mut ≫= λ _,
     load_pool b ≫= λ s', des_conds (conds s') cond ≫= λ _,
       free (Some b) ≫= λ _, mret NULL) w =
    Ok NULL (mk_world (delete b (drop_array (conds s) cond
                                  (drop_array (muts s) mut (heap w))))
                      (next_block w) (next_tid w)
                      (trace w ++ des_muts_events (muts s) mut ++
                         des_conds_events (conds s) cond ++ [EvFree b])).
Proof.
  intros Hp Hm Hc.
  change des_muts with (des_array KMutex). change des_conds with (des_array KCond).
  change des_muts_events with (des_array_events KMutex).
  change des_conds_events with (des_array_events KCond).
  rewrite (bind_run _ _ _ _ _ (des_array_run _ _ _ _ Hm)).
  set (wa := mk_world (drop_array (muts s) mut (heap w)) _ _ _).
  assert (Hpa : heap wa !! b = Some (Pool s)) by by eapply drop_array_keep.
  assert (Hca : conds s = None ∨ conds_at wa (conds s) cond = true).
  { destruct Hc as [|Hc]; [by left|right]. rewrite <- Hc. apply prims_at_ext.
    intros cb Hcb. rewrite Hcb in Hc. unfold prims_at in Hc.
    destruct (heap w !! cb) as [[|k' cs|]|] eqn:Hb; try done.
    apply andb_true_iff in Hc as [[->%bool_decide_eq_true _]%andb_true_iff _].
    by eapply drop_array_keep. }
  rewrite (bind_run _ _ _ _ _ (load_pool_run _ _ _ Hpa)).
  rewrite (bind_run _ _ _ _ _ (des_array_run _ _ _ _ Hca)).
  set (wb := mk_world (drop_array (conds s) cond (heap wa)) _ _ _).
  assert (Hpb : heap wb !! b = Some (Pool s)) by by eapply drop_array_keep.
  rewrite (bind_run _ _ _ _ _ (free_run _ _ _ Hpb)).
  simpl. by rewrite <- !app_assoc.
Qed.


(** Everything a successful [prethd_new] has done: the pool object, the
    arrays that exist, the thread array with all its slots empty, the trace,
    the order in which the blocks were handed out. *)
Lemma prethd_new_built th mut cond w p w1 :
  prethd_new P th mut cond w = Ok (Some p) w1 →
  ∃ s t fm fc,
    p = next_block w ∧ threads s = Some t ∧
    len s = th ∧ mlen s = mut ∧ clen s = cond ∧
    w1 = mk_world
           (<[p:=Pool s]>
              (<[t:=Threads (replicate (elems (wrap_size (th * N.pos (sizeof_thread P)))
                                              (sizeof_thread P)) None)]>
                 (put_array KCond (conds s) fc
                    (put_array KMutex (muts s) fm (heap w)))))
           (Pos.succ t) (next_tid w)
           (trace w ++ EvMalloc (N.pos (sizeof_pool P)) (Some p)
              :: init_array_events KMutex (sizeof_mutex P) mut (muts s)
              ++ init_array_events KCond (sizeof_cond P) cond (conds s)
              ++ [EvMalloc (wrap_size (th * N.pos (sizeof_thread P))) (Some t)]) ∧
    (p < t)%positive ∧
    (∀ x, muts s = Some x →
       (p < x < t)%positive ∧ mut ≠ 0 ∧ length fm = N.to_nat mut ∧ forallb id fm = true) ∧
    (∀ x, conds s = Some x →
       (p < x < t)%positive ∧ cond ≠ 0 ∧ length fc = N.to_nat cond ∧
       forallb id fc = true ∧ muts s ≠ Some x).
Proof.
  unfold prethd_new.
  change (init_muts P mut) with (init_array P KMutex (sizeof_mutex P) mut).
  change (init_conds P cond) with (init_array P KCond (sizeof_cond P) cond).
  change des_muts with (des_array KMutex). change des_conds with (des_array KCond).
  destruct (th =? 0); [done|].
  destruct (malloc_cases P (N.pos (sizeof_pool P)) (Pool blank_pool) w) as [Hm|Hm];
    rewrite (bind_run _ _ _ _ _ Hm); [clear Hm|done].
  set (b := next_block w).
  do 3 pool_step. rewrite !insert_insert_eq.
  array_exact m fm Em. world_simpl. cbn [heap next_block next_tid trace] in Em.
  destruct m as [mb|];
    [destruct (Em _ eq_refl) as (-> & Hmut & Hlen_m & Hall_m)|]; clear Em.
  all: world_simpl; pool_step; rewrite ?insert_insert_eq.
  all: array_exact c fc Ec; world_simpl; cbn [heap next_block next_tid trace] in Ec.
  all: destruct c as [cb|];
    [destruct (Ec _ eq_refl) as (-> & Hcond & Hlen_c & Hall_c)|]; clear Ec.
  all: world_simpl; pool_step.
  all: match goal with
       | |- (malloc ?P ?size ?c ≫= _) ?w0 = _ → _ =>
           destruct (malloc_cases P size c w0) as [Hm|Hm];
           rewrite (bind_run _ _ _ _ _ Hm); clear Hm
       end.
  all: world_simpl; pool_step; rewrite ?insert_insert_eq.
  all: erewrite bind_run; [|apply load_pool_run; heap_solve]; cbn [threads set_threads].
  all: try (intros H; repeat (apply bind_ok in H as (? & ? & _ & H)); discriminate).
  all: intros [= <- <-].
  all: match goal with |- context [mk_world (<[_:=Pool ?s]> _) _ _ _] => exists s end;
    eexists _, fm, fc.
  all: cbn [heap next_block next_tid trace len mlen clen muts conds
            threads set_threads set_conds set_muts set_clen set_mlen
            set_len blank_pool put_array].
  all: split; [reflexivity|]; split; [reflexivity|].
  all: do 3 (split; [reflexivity|]).
  all: split; [f_equal;
    [apply map_eq; intros x; rewrite !lookup_insert; repeat case_decide; try done; lia
    |rewrite <- !app_assoc; reflexivity]|].
  all: split; [lia|].
  all: split; [intros x [= <-] || (intros x [=]) | intros x [= <-] || (intros x [=])].
  all: repeat split; try done; try lia.
  intros [= Hx]. lia.
Qed.

End Built.

(** ** A construction that fails *)

Lemma tidy_boot : tidy boot.
Proof. intros x _. apply lookup_empty. Qed.

(** Establish that an array of the pool in the goal is absent or fully
    initialised. *)
Ltac array_fact :=
  first
    [ by left
    | right; unfold prims_at; heap_solve;
      rewrite bool_decide_eq_true_2 by done;
      match goal with H : length ?l = _ |- context [length ?l] => rewrite H end;
      rewrite N2Nat.id, N.eqb_refl; done ].

Section NullResult.
Context (P : platform).

(** X1: when [prethd_new] returns the null pointer it leaves nothing
    behind: the heap is the one it found and no thread was started.  Either
    no thread was asked for and nothing happened at all, or [malloc] refused
    the pool object and only that request was logged, or it refused the
    thread array: then every primitive that had been initialised was
    destroyed, in index order, its array was freed, and the pool object was
    freed last. *)
Theorem new_null_leaves_nothing (th mut cond : N) (w w1 : world) :
  tidy w →
  prethd_new P th mut cond w = Ok NULL w1 →
  heap w1 = heap w ∧ next_tid w1 = next_tid w ∧
  ((th = 0 ∧ w1 = w) ∨
   (th ≠ 0 ∧ trace w1 = trace w ++ [EvMalloc (N.pos (sizeof_pool P)) NULL]) ∨
   (th ≠ 0 ∧ ∃ m c,
      trace w1 = trace w ++
        EvMalloc (N.pos (sizeof_pool P)) (Some (next_block w))
        :: init_array_events KMutex (sizeof_mutex P) mut m
        ++ init_array_events KCond (sizeof_cond P) cond c
        ++ [EvMalloc (wrap_size (th * N.pos (sizeof_thread P))) NULL]
        ++ des_muts_events m mut ++ des_conds_events c cond
        ++ [EvFree (next_block w)])).
Proof.
  intros Hfresh. unfold prethd_new.
  change (init_muts P mut) with (init_array P KMutex (sizeof_mutex P) mut).
  change (init_conds P cond) with (init_array P KCond (sizeof_cond P) cond).
  destruct (N.eqb_spec th 0) as [Hth|Hth].
  { intros [= <-]. repeat split. by left. }
  destruct (malloc_cases P (N.pos (sizeof_pool P)) (Pool blank_pool) w) as [Hm|Hm];
    rewrite (bind_run _ _ _ _ _ Hm); clear Hm.
  2:{ intros [= <-]. repeat split. right. by left. }
  set (b := next_block w) in *.
  do 3 pool_step. rewrite !insert_insert_eq.
  array_exact m fm Em. world_simpl. cbn [heap next_block next_tid trace] in Em.
  destruct m as [mb|];
    [destruct (Em _ eq_refl) as (-> & Hmut & Hlen_m & Hall_m)|]; clear Em.
  all: world_simpl; pool_step; rewrite ?insert_insert_eq.
  all: array_exact c fc Ec; world_simpl; cbn [heap next_block next_tid trace] in Ec.
  all: destruct c as [cb|];
    [destruct (Ec _ eq_refl) as (-> & Hcond & Hlen_c & Hall_c)|]; clear Ec.
  all: world_simpl; pool_step.
  all: match goal with
       | |- (malloc ?P ?size ?c ≫= _) ?w0 = _ → _ =>
           destruct (malloc_cases P size c w0) as [Hm|Hm];
           rewrite (bind_run _ _ _ _ _ Hm); clear Hm
       end.
  all: world_simpl; pool_step; rewrite ?insert_insert_eq.
  all: erewrite bind_run; [|apply load_pool_run; heap_solve]; cbn [threads set_threads].
  all: try discriminate.
  all: erewrite rollback_run; [|heap_solve|..].
  all: cbn [heap next_block next_tid trace len mlen clen muts conds
            threads set_threads set_conds set_muts set_clen set_mlen
            set_len blank_pool].
  all: try array_fact.
  all: intros [= <-]; cbn [heap next_block next_tid trace].
  all: unfold drop_array.
  all: repeat match goal with
       | H : ?n ≠ 0 |- context [0 <? ?n] =>
           replace (0 <? n) with true by (symmetry; apply N.ltb_lt; lia)
       end.
  all: split; [apply map_eq; intros x; rewrite ?lookup_delete, ?lookup_insert;
               repeat case_decide; try done; symmetry; apply Hfresh; lia|].
  all: split; [done|]. 
  all: right; right; split; [done|].
  1: exists (Some (Pos.succ b)), (Some (Pos.succ (Pos.succ b))).
  2: exists (Some (Pos.succ b)), None.
  3: exists None, (Some (Pos.succ b)).
  4: exists None, None.
  all: unfold init_array_events, des_muts_events, des_conds_events.
  all: repeat match goal with
       | H : ?n ≠ 0 |- context [0 <? ?n] =>
           replace (0 <? n) with true by (symmetry; apply N.ltb_lt; lia)
       end.
  all: by rewrite <- !app_assoc.
Qed.

End NullResult.

(** One thread and one mutex on the platform that has no memory for the
    thread array: the mutex array and the pool object are given back. *)
Lemma new_null_leaves_nothing_witness :
  let w1 := after (prethd_new lp64_no_threads 1 1 0) boot in
  heap w1 = ∅ ∧ next_tid w1 = 0.
Proof.
  intros w1.
  destruct (new_null_leaves_nothing lp64_no_threads 1 1 0 boot w1) as (Hh & Ht & _).
  - exact tidy_boot.
  - vm_compute. reflexivity.
  - split; [exact Hh | exact Ht].
Defined.

(** ** Construction runs to its end *)

Section Returns.
Context (P : platform).

Lemma prethd_new_no_fault th mut cond w :
  fits mut (sizeof_mutex P) → fits cond (sizeof_cond P) →
  prethd_new P th mut cond w ≠ Fault.
Proof.
  intros Hfm Hfc. unfold prethd_new.
  change (init_muts P mut) with (init_array P KMutex (sizeof_mutex P) mut).
  change (init_conds P cond) with (init_array P KCond (sizeof_cond P) cond).
  destruct (th =? 0); [done|].
  destruct (malloc_cases P (N.pos (sizeof_pool P)) (Pool blank_pool) w) as [Hm|Hm];
    rewrite (bind_run _ _ _ _ _ Hm); [clear Hm|done].
  set (b := next_block w) in *.
  do 3 pool_step. rewrite !insert_insert_eq.
  match goal with |- (init_array _ _ _ _ ≫= _) ?w0 ≠ _ =>
    destruct (init_array_returns P KMutex (sizeof_mutex P) mut w0 Hfm) as (m & wc & Em)
  end.
  rewrite (bind_run _ _ _ _ _ Em). apply init_array_exact in Em as (fm & -> & Em).
  world_simpl. cbn [heap next_block next_tid trace] in Em.
  destruct m as [mb|];
    [destruct (Em _ eq_refl) as (-> & Hmut & Hlen_m & Hall_m)|]; clear Em.
  all: world_simpl; pool_step; rewrite ?insert_insert_eq.
  all: match goal with |- (init_array _ _ _ _ ≫= _) ?w0 ≠ _ =>
    destruct (init_array_returns P KCond (sizeof_cond P) cond w0 Hfc) as (c & we & Ec)
  end.
  all: rewrite (bind_run _ _ _ _ _ Ec); apply init_array_exact in Ec as (fc & -> & Ec).
  all: world_simpl; cbn [heap next_block next_tid trace] in Ec.
  all: destruct c as [cb|];
    [destruct (Ec _ eq_refl) as (-> & Hcond & Hlen_c & Hall_c)|]; clear Ec.
  all: world_simpl; pool_step.
  all: match goal with
       | |- (malloc ?P ?size ?c ≫= _) ?w0 ≠ _ =>
           destruct (malloc_cases P size c w0) as [Hm|Hm];
           rewrite (bind_run _ _ _ _ _ Hm); clear Hm
       end.
  all: world_simpl; pool_step; rewrite ?insert_insert_eq.
  all: erewrite bind_run; [|apply load_pool_run; heap_solve]; cbn [threads set_threads].
  all: try discriminate.
  all: erewrite rollback_run; [|heap_solve|..].
  all: cbn [heap next_block next_tid trace len mlen clen muts conds
            threads set_threads set_conds set_muts set_clen set_mlen
            set_len blank_pool].
  all: try array_fact.
  all: discriminate.
Qed.

(** X2: with counts whose arrays fit [size_t], [prethd_new] runs to its end
    whatever malloc answers to each of its requests: it returns a pool or
    the null pointer, and never uses a pointer it should not. *)
Theorem new_returns_when_sizes_fit (th mut cond : N) (w : world) :
  fits mut (sizeof_mutex P) → fits cond (sizeof_cond P) →
  ∃ r w1, prethd_new P th mut cond w = Ok r w1.
Proof.
  intros Hfm Hfc. pose proof (prethd_new_no_fault th mut cond w Hfm Hfc) as H.
  destruct (prethd_new P th mut cond w) as [r w1|]; [eauto|done].
Qed.

End Returns.

(** Two threads, one mutex and one condition variable on the platform that
    has no memory for the mutex array. *)
Lemma new_returns_when_sizes_fit_witness :
  ∃ r w1, prethd_new lp64_no_mutex 2 1 1 boot = Ok r w1.
Proof.
  apply (new_returns_when_sizes_fit lp64_no_mutex 2 1 1 boot); reflexivity.
Defined.

(** ** Operations write thread handles only *)

Lemma only_handles_refl a w : only_handles a w w.
Proof.
  split; [done|]. split; [by left|]. exists []. by rewrite app_nil_r.
Qed.

Lemma only_handles_trans a w w1 w2 :
  only_handles a w w1 → only_handles a w1 w2 → only_handles a w w2.
Proof.
  intros (Hn1 & Hh1 & e1 & Ht1 & He1) (Hn2 & Hh2 & e2 & Ht2 & He2).
  split; [congruence|]. split.
  - intros x. destruct (Hh2 x) as [H2|(Hx & ts1 & ts2 & Ha & Hb & Hl2)];
      destruct (Hh1 x) as [H1|(Hx' & ts & ts1' & Hc & Hd & Hl1)].
    + left. congruence.
    + right. split; [done|]. exists ts, ts1'. rewrite H2. done.
    + right. split; [done|]. exists ts1, ts2. rewrite <- H1. done.
    + right. split; [done|]. exists ts, ts2. rewrite Hd in Ha. injection Ha as <-.
      split; [done|]. split; [done|]. congruence.
  - exists (e1 ++ e2). rewrite Ht2, Ht1, <- app_assoc. split; [done|].
    rewrite forallb_app. by rewrite He1, He2.
Qed.

Lemma only_handles_log a w e : is_call e = true → only_handles a w (log e w).
Proof.
  intros He. split; [done|]. split; [by left|]. exists [e]. simpl. by rewrite He.
Qed.

(** The pool object itself is not a thread array: it keeps its array. *)
Lemma only_handles_array th w w1 :
  only_handles (thread_array w th) w w1 → thread_array w1 th = thread_array w th.
Proof.
  intros (_ & Hh & _). destruct th as [p|]; [|done]. simpl in *.
  destruct (Hh p) as [->|(Hx & ts & ts' & Hp & _)]; [done|].
  by rewrite Hp in Hx.
Qed.

Section Handles.
Context (P : platform).

Ltac prim_call_log :=
  intros ([b f] & w' & ->%load_prim_ok & Hk)%bind_ok;
  destruct f; [|done]; unfold answer in Hk; injection Hk as _ <-;
  by apply only_handles_log.

Lemma pthread_mutex_lock_handles x a i w r w1 :
  pthread_mutex_lock P a i w = Ok r w1 → only_handles x w w1.
Proof. unfold pthread_mutex_lock. prim_call_log. Qed.

Lemma pthread_mutex_unlock_handles x a i w r w1 :
  pthread_mutex_unlock P a i w = Ok r w1 → only_handles x w w1.
Proof. unfold pthread_mutex_unlock. prim_call_log. Qed.

Lemma pthread_cond_signal_handles x a i w r w1 :
  pthread_cond_signal P a i w = Ok r w1 → only_handles x w w1.
Proof. unfold pthread_cond_signal. prim_call_log. Qed.

Lemma pthread_cond_broadcast_handles x a i w r w1 :
  pthread_cond_broadcast P a i w = Ok r w1 → only_handles x w w1.
Proof. unfold pthread_cond_broadcast. prim_call_log. Qed.

Lemma pthread_cond_wait_handles x ca c ma m w r w1 :
  pthread_cond_wait P ca c ma m w = Ok r w1 → only_handles x w w1.
Proof.
  unfold pthread_cond_wait.
  intros ([cb cf] & w' & ->%load_prim_ok & Hk)%bind_ok.
  apply bind_ok in Hk as ([mb mf] & w' & ->%load_prim_ok & Hk).
  destruct (cf && mf); [|done]. unfold answer in Hk. injection Hk as _ <-.
  by apply only_handles_log.
Qed.

Lemma pthread_create_handles a i w rc w1 :
  pthread_create P a i w = Ok rc w1 → only_handles a w w1.
Proof.
  unfold pthread_create. destruct a as [b|]; [|done].
  intros (c & w' & [-> Hb]%load_ok & Hc)%bind_ok.
  destruct c as [| |ts]; try done.
  destruct (decide (N.to_nat i < length ts)%nat); [|done].
  destruct (create_rc P (trace w) b i =? 0)%Z; injection Hc as _ <-.
  - split; [done|]. split; [|by eexists [_]].
    intros x. simpl. destruct (decide (b = x)) as [<-|Hne].
    + right. split; [done|]. eexists _, _. rewrite lookup_insert_eq.
      split; [done|]. split; [done|]. by rewrite length_insert.
    + left. by rewrite lookup_insert_ne.
  - by apply (only_handles_log _ w (EvCreate b i _)).
Qed.

Lemma all_loop_handles a n : ∀ i ret w r w1,
  all_loop P a n i ret w = Ok r w1 → only_handles a w w1.
Proof.
  induction n as [|n IH]; intros i ret w r w1; simpl.
  - intros [= _ <-]. apply only_handles_refl.
  - intros (rc & w' & Hc%pthread_create_handles & Hk)%bind_ok.
    destruct (rc =? 0)%Z.
    + eapply only_handles_trans; [done|]. by eapply IH.
    + by injection Hk as _ <-.
Qed.

Lemma join_loop_handles x a n i chk w c w1 :
  join_loop P a n i chk w = Ok c w1 → only_handles x w w1.
Proof.
  intros (Hh & Hn & _ & evs & Ht & He)%join_loop_frame.
  split; [done|]. split; [left; by rewrite Hh|]. exists evs. split; [done|].
  apply forallb_forall. intros e He'. eapply forallb_forall in He; [|done].
  by destruct e.
Qed.

Lemma run_op_handles th o w w1 :
  run_op P th o w = Ok tt w1 → only_handles (thread_array w th) w w1.
Proof.
  destruct th as [p|].
  2:{ destruct o; intros [= <-]; apply only_handles_refl. }
  destruct o; simpl; intros (r & w' & Hop & [= <-])%bind_ok;
    apply bind_ok in Hop as (s & w'' & [-> ->]%load_pool_ok & Hop).
  - by eapply all_loop_handles.
  - apply bind_ok in Hop as (chk & w'' & Hj & [= _ <-]). by eapply join_loop_handles.
  - destruct (mlen s <=? i); [injection Hop as _ <-; apply only_handles_refl|].
    by apply bind_ok in Hop as (rc & w'' & Hh%(pthread_mutex_lock_handles (threads s)) & [= _ <-]).
  - destruct (mlen s <=? i); [injection Hop as _ <-; apply only_handles_refl|].
    by apply bind_ok in Hop as (rc & w'' & Hh%(pthread_mutex_unlock_handles (threads s)) & [= _ <-]).
  - destruct ((clen s <=? c) || (mlen s <=? m))%bool;
      [injection Hop as _ <-; apply only_handles_refl|].
    by apply bind_ok in Hop as (rc & w'' & Hh%(pthread_cond_wait_handles (threads s)) & [= _ <-]).
  - destruct (clen s <=? i); [injection Hop as _ <-; apply only_handles_refl|].
    by apply bind_ok in Hop as (rc & w'' & Hh%(pthread_cond_signal_handles (threads s)) & [= _ <-]).
  - destruct (clen s <=? i); [injection Hop as _ <-; apply only_handles_refl|].
    by apply bind_ok in Hop as (rc & w'' & Hh%(pthread_cond_broadcast_handles (threads s)) & [= _ <-]).
Qed.

Lemma run_ops_handles th os : ∀ w w1,
  run_ops P th os w = Ok tt w1 → only_handles (thread_array w th) w w1.
Proof.
  induction os as [|o os IH]; intros w w1; simpl.
  - intros [= <-]. apply only_handles_refl.
  - intros ([] & w' & Ho%run_op_handles & Hos%IH)%bind_ok.
    rewrite (only_handles_array _ _ _ Ho) in Hos.
    by eapply only_handles_trans.
Qed.


End Handles.


(** ** From construction to release *)

Lemma put_array_lookup k a fs h y :
  put_array k a fs h !! y = if decide (a = Some y) then Some (Prims k fs) else h !! y.
Proof.
  unfold put_array. destruct a as [b|]; [|by destruct (decide _)].
  destruct (decide (Some b = Some y)) as [[= ->]|Hne].
  - by rewrite lookup_insert_eq.
  - rewrite lookup_insert_ne; [done|]. by intros ->.
Qed.

Lemma drop_array_lookup a n h y :
  n ≠ 0 →
  drop_array a n h !! y = if decide (a = Some y) then None else h !! y.
Proof.
  intros Hn. unfold drop_array. destruct a as [b|]; [|by destruct (decide _)].
  destruct (N.ltb_spec 0 n); [|lia].
  destruct (decide (Some b = Some y)) as [[= ->]|Hne].
  - by rewrite lookup_delete_eq.
  - rewrite lookup_delete_ne; [done|]. by intros ->.
Qed.

Section Lifecycle.
Context (P : platform).

(** The pool [prethd_new] returned, after any operations on it, is still
    what [prethd_free] expects, and releasing it gives back the heap there
    was before the construction. *)
Lemma lifecycle_run th mut cond os w p w1 w2 :
  tidy w →
  prethd_new P th mut cond w = Ok (Some p) w1 →
  run_ops P (Some p) os w1 = Ok tt w2 →
  ∃ s t w3,
    heap w1 !! p = Some (Pool s) ∧ threads s = Some t ∧
    prethd_free (Some p) w2 = Ok tt w3 ∧ heap w3 = heap w ∧
    trace w3 = trace w2 ++ des_muts_events (muts s) mut ++
                 des_conds_events (conds s) cond ++ [EvFree t; EvFree p].
Proof.
  intros Hw Hnew Hops.
  destruct (prethd_new_built P _ _ _ _ _ _ Hnew)
    as (s & t & fm & fc & Hp & Hts & Hl & Hml & Hcl & -> & Hpt & Hm & Hc).
  apply run_ops_handles in Hops. cbn [thread_array heap] in Hops.
  rewrite lookup_insert_eq, Hts in Hops.
  destruct Hops as (Hnb & Hh & _). cbn [heap next_block] in Hh, Hnb.
  assert (Hother : ∀ y, y ≠ t → heap w2 !! y =
            (<[p:=Pool s]> (<[t:=Threads (replicate (elems (wrap_size (th * N.pos (sizeof_thread P))) (sizeof_thread P)) None)]>
               (put_array KCond (conds s) fc (put_array KMutex (muts s) fm (heap w))))) !! y).
  { intros y Hy. destruct (Hh y) as [->|([= ->] & _)]; done. }
  assert (Hp2 : heap w2 !! p = Some (Pool s)).
  { rewrite Hother by lia. by rewrite lookup_insert_eq. }
  assert (∃ ts, heap w2 !! t = Some (Threads ts)) as [ts Ht2].
  { destruct (Hh t) as [->|(_ & ? & ts & _ & -> & _)]; [|by eexists].
    rewrite lookup_insert_ne by lia. rewrite lookup_insert_eq. by eexists. }
  assert (Hm2 : muts s = None ∨ mutexes_at w2 (muts s) (mlen s) = true).
  { destruct (muts s) as [x|] eqn:Hx; [right|by left].
    destruct (Hm x eq_refl) as (Hlt & Hn & Hlen & Hf).
    unfold prims_at. rewrite Hother by lia.
    rewrite !lookup_insert_ne by lia. rewrite !put_array_lookup.
    destruct (decide (conds s = Some x)) as [Hcx|_].
    { by destruct (Hc x Hcx) as (_ & _ & _ & _ & ?). }
    rewrite decide_True by done.
    rewrite bool_decide_eq_true_2 by done.
    by rewrite Hf, Hlen, N2Nat.id, Hml, N.eqb_refl. }
  assert (Hc2 : conds s = None ∨ conds_at w2 (conds s) (clen s) = true).
  { destruct (conds s) as [x|] eqn:Hx; [right|by left].
    destruct (Hc x eq_refl) as (Hlt & Hn & Hlen & Hf & _).
    unfold prims_at. rewrite Hother by lia.
    rewrite !lookup_insert_ne by lia. rewrite !put_array_lookup.
    rewrite decide_True by done.
    rewrite bool_decide_eq_true_2 by done.
    by rewrite Hf, Hlen, N2Nat.id, Hcl, N.eqb_refl. }
  rewrite (prethd_free_run _ _ _ _ _ Hp2 Hts Ht2 Hm2 Hc2).
  exists s, t. eexists. split; [cbn [heap]; by rewrite lookup_insert_eq|]. split; [done|].
  split; [done|]. cbn [heap]. rewrite Hml, Hcl.
  split; [|done].
  apply map_eq. intros y.
  assert (Hnone : ∀ z, (p ≤ z)%positive → heap w !! z = None).
  { intros z Hz. apply Hw. lia. }
  destruct (decide (y = p)) as [->|Hyp].
  { rewrite lookup_delete_eq. symmetry. apply Hnone. lia. }
  rewrite lookup_delete_ne by done.
  destruct (decide (y = t)) as [->|Hyt].
  { rewrite lookup_delete_eq. symmetry. apply Hnone. lia. }
  rewrite lookup_delete_ne by done.
  assert (Hdc : ∀ h, drop_array (conds s) cond h !! y =
                     if decide (conds s = Some y) then None else h !! y).
  { intros h. destruct (conds s) as [x|] eqn:Hx.
    - apply drop_array_lookup. by destruct (Hc x eq_refl) as (_ & ? & _).
    - by destruct (decide _). }
  assert (Hdm : ∀ h, drop_array (muts s) mut h !! y =
                     if decide (muts s = Some y) then None else h !! y).
  { intros h. destruct (muts s) as [x|] eqn:Hx.
    - apply drop_array_lookup. by destruct (Hm x eq_refl) as (_ & ? & _).
    - by destruct (decide _). }
  rewrite Hdc, Hdm, Hother by done.
  rewrite !lookup_insert_ne by done. rewrite !put_array_lookup.
  destruct (decide (conds s = Some y)) as [Hcy|_].
  { symmetry. apply Hnone. destruct (Hc y Hcy) as (? & _). lia. }
  destruct (decide (muts s = Some y)) as [Hmy|_]; [|done].
  symmetry. apply Hnone. destruct (Hm y Hmy) as (? & _). lia.
Qed.

(** X4: a pool object that [prethd_new] returned can always be released,
    whatever [malloc] gave for the arrays of primitives and whatever
    operations were applied to the pool in between, provided they returned.
    [prethd_free] destroys the primitives, frees the arrays, the thread
    array and the pool object, joins no thread, and leaves the heap there
    was before [prethd_new]: no block of the pool stays behind and no other
    block is touched. *)
Theorem release_restores_heap (th mut cond : N) (os : list op) (w w1 w2 : world)
    (p : block) :
  tidy w →
  prethd_new P th mut cond w = Ok (Some p) w1 →
  run_ops P (Some p) os w1 = Ok tt w2 →
  ∃ s t w3,
    heap w1 !! p = Some (Pool s) ∧ threads s = Some t ∧
    prethd_free (Some p) w2 = Ok tt w3 ∧ heap w3 = heap w ∧
    trace w3 = trace w2 ++ des_muts_events (muts s) mut ++
                 des_conds_events (conds s) cond ++ [EvFree t; EvFree p].
Proof. apply lifecycle_run. Qed.

End Lifecycle.

(** A pool built without its mutex array, started and joined, then
    released. *)
Lemma release_restores_heap_witness :
  let w1 := after (prethd_new lp64_no_mutex 2 1 1) boot in
  let w2 := after (run_ops lp64_no_mutex (Some 1%positive) [OpAll; OpSignal 0; OpJoin]) w1 in
  ∃ w3, prethd_free (Some 1%positive) w2 = Ok tt w3 ∧ heap w3 = ∅.
Proof.
  intros w1 w2.
  destruct (release_restores_heap lp64_no_mutex 2 1 1 [OpAll; OpSignal 0; OpJoin]
              boot w1 w2 1%positive) as (s & t & w3 & _ & _ & Hfree & Hheap & _).
  - exact tidy_boot.
  - vm_compute. reflexivity.
  - vm_compute. reflexivity.
  - exists w3. split; [exact Hfree | exact Hheap].
Defined.

(** ** Handles *)

Lemma length_handles k : ∀ tid, length (handles tid k) = k.
Proof. induction k as [|k IH]; intros tid; simpl; [done|]. by rewrite IH. Qed.

Lemma elem_of_handles k x : ∀ tid, Some x ∈ handles tid k → tid ≤ x < tid + N.of_nat k.
Proof.
  induction k as [|k IH]; intros tid; simpl.
  - by intros ?%elem_of_nil.
  - intros [[= ->]|Hin%IH]%elem_of_cons; lia.
Qed.

Section Started.
Context (P : platform).

(** A start loop that returns has written the handles of the threads it
    started, fresh and in the order of their start, into consecutive slots
    from [i] on, and nothing else. *)
Lemma all_loop_slots t n : ∀ i ret w ts r w1,
  heap w !! t = Some (Threads ts) →
  all_loop P (Some t) n i ret w = Ok r w1 →
  ∃ k : nat,
    r = ret + N.of_nat k ∧ (k ≤ n)%nat ∧
    (k = 0 ∨ N.to_nat i + k ≤ length ts)%nat ∧
    next_tid w1 = next_tid w + N.of_nat k ∧
    heap w1 !! t =
      Some (Threads (take (N.to_nat i) ts ++ handles (next_tid w) k ++
                     drop (N.to_nat i + k) ts)) ∧
    (∀ x, x ≠ t → heap w1 !! x = heap w !! x) ∧
    next_block w1 = next_block w.
Proof.
  induction n as [|n IH]; intros i ret w ts r w1 Ht; simpl.
  - intros [= <- <-]. exists 0%nat. rewrite N.add_0_r, Nat.add_0_r. simpl.
    rewrite take_drop. repeat split; try done; lia.
  - intros (rc & w' & Hc & Hk)%bind_ok. unfold pthread_create in Hc.
    rewrite (bind_run _ _ _ _ _ (load_run _ _ _ Ht)) in Hc.
    destruct (decide (N.to_nat i < length ts)%nat) as [Hi|]; [|done].
    destruct (create_rc P (trace w) t i =? 0)%Z eqn:Hrc; injection Hc as <- <-;
      rewrite Hrc in Hk.
    + eapply IH in Hk as (k & -> & Hkn & Hkl & Htid & Hts & Hoth & Hnb);
        [|simpl; apply lookup_insert_eq].
      cbn [heap next_tid next_block] in *. rewrite length_insert in Hkl.
      exists (S k). split; [lia|]. split; [lia|]. split; [lia|].
      split; [lia|]. split; [|split; [|done]].
      * rewrite Hts. do 2 f_equal.
        replace (N.to_nat (i + 1)) with (S (N.to_nat i)) by lia.
        rewrite (take_S_r _ _ (Some (next_tid w))) by by apply list_lookup_insert_eq.
        rewrite take_insert_ge by lia. rewrite drop_insert_lt by lia.
        rewrite <- app_assoc. simpl. by rewrite Nat.add_succ_r.
      * intros x Hx. rewrite Hoth by done. by rewrite lookup_insert_ne.
    + injection Hk as <- <-. exists 0%nat. rewrite N.add_0_r, Nat.add_0_r. simpl.
      rewrite take_drop. repeat split; try done; lia.
Qed.

(** With every [pthread_create] succeeding, a start loop sent past the end
    of its array leaves it. *)
Lemma all_loop_short t n : ∀ i ret w ts,
  (∀ tr b j, create_rc P tr b j = 0%Z) →
  heap w !! t = Some (Threads ts) →
  (N.to_nat i ≤ length ts < N.to_nat i + n)%nat →
  all_loop P (Some t) n i ret w = Fault.
Proof.
  induction n as [|n IH]; intros i ret w ts Hok Ht Hlen; [lia|]. simpl.
  destruct (decide (N.to_nat i < length ts)%nat) as [Hi|Hi].
  - rewrite (bind_run _ _ _ _ _ (pthread_create_run P _ _ _ _ Ht Hi)).
    rewrite Hok. cbn [Z.eqb]. eapply IH; [done|simpl; apply lookup_insert_eq|].
    rewrite length_insert. lia.
  - apply bind_fault. unfold pthread_create.
    rewrite (bind_run _ _ _ _ _ (load_run _ _ _ Ht)). by rewrite decide_False.
Qed.

(** A join loop sent past the end of its array leaves it, whatever the
    joins answer. *)
Lemma join_loop_short t n : ∀ i chk w ts,
  heap w !! t = Some (Threads ts) →
  (N.to_nat i ≤ length ts < N.to_nat i + n)%nat →
  join_loop P (Some t) n i chk w = Fault.
Proof.
  induction n as [|n IH]; intros i chk w ts Ht Hlen; [lia|]. simpl.
  destruct (ts !! N.to_nat i) as [h|] eqn:Hh.
  - rewrite (bind_run _ _ _ _ _ (load_thread_run _ _ _ _ _ Ht Hh)).
    unfold pthread_join, answer, mbind at 1, M_bind at 1.
    apply (IH _ _ _ ts); [done|]. apply lookup_lt_Some in Hh. lia.
  - apply bind_fault. unfold load_thread.
    rewrite (bind_run _ _ _ _ _ (load_run _ _ _ Ht)). by rewrite Hh.
Qed.

(** What [prethd_all] leaves in the thread array. *)
Lemma prethd_all_slots w w1 p t s ts k :
  heap w !! p = Some (Pool s) → threads s = Some t →
  heap w !! t = Some (Threads ts) → length ts = N.to_nat (len s) →
  prethd_all P (Some p) w = Ok k w1 →
  k ≤ len s ∧ next_tid w1 = next_tid w + k ∧ next_block w1 = next_block w ∧
  heap w1 !! p = Some (Pool s) ∧
  heap w1 !! t =
    Some (Threads (handles (next_tid w) (N.to_nat k) ++ drop (N.to_nat k) ts)).
Proof.
  intros Hp Hts Ht Hlen. unfold prethd_all.
  rewrite (bind_run _ _ _ _ _ (load_pool_run _ _ _ Hp)), Hts.
  intros (j & -> & Hj & _ & Htid & Hslots & Hoth & Hnb)%(all_loop_slots _ _ _ _ _ ts); [|done].
  rewrite N.add_0_l, Nat2N.id in *. simpl in Hslots.
  split; [lia|]. split; [done|]. split; [done|]. split; [|done].
  rewrite Hoth; [done|]. intros ->. congruence.
Qed.

(** X5: [prethd_join] passes to [pthread_join] exactly what [prethd_all]
    left in the thread array: the handles of the [k] threads it started,
    which are the next [k] handles of the platform in the order of their
    start, followed by the former content of the slots from [k] on. *)
Theorem join_joins_what_all_started (w w1 : world) (p t : block)
    (s : pre_threads_t) (ts : list (option N)) (k : N) :
  heap w !! p = Some (Pool s) → threads s = Some t →
  heap w !! t = Some (Threads ts) → length ts = N.to_nat (len s) →
  prethd_all P (Some p) w = Ok k w1 →
  next_tid w1 = next_tid w + k ∧
  ∃ r w2,
    prethd_join P (Some p) w1 = Ok r w2 ∧
    joined (since w1 w2) = handles (next_tid w) (N.to_nat k) ++ drop (N.to_nat k) ts.
Proof.
  intros Hp Hts Ht Hlen Hall.
  destruct (prethd_all_slots _ _ _ _ _ _ _ Hp Hts Ht Hlen Hall)
    as (Hk & Htid & _ & Hp1 & Ht1).
  split; [done|]. eexists _, _.
  split.
  - apply (prethd_join_run P _ _ _ _ _ Hp1 Hts Ht1).
    rewrite length_app, length_handles, length_drop. lia.
  - erewrite since_app; [|reflexivity]. apply joined_join_events.
Qed.

(** X6: nothing keeps [prethd_all] from being called again on a pool whose
    threads run.  With every [pthread_create] succeeding, the second call
    starts as many threads again and overwrites every handle of the first
    batch; a following [prethd_join] joins the second batch only, and no
    thread of the first batch is ever joined. *)
Theorem second_start_overwrites_handles (w : world) (p t : block)
    (s : pre_threads_t) (ts : list (option N)) :
  heap w !! p = Some (Pool s) → threads s = Some t →
  heap w !! t = Some (Threads ts) → length ts = N.to_nat (len s) →
  (∀ tr b j, create_rc P tr b j = 0%Z) →
  ∃ w1 w2 r w3,
    prethd_all P (Some p) w = Ok (len s) w1 ∧
    prethd_all P (Some p) w1 = Ok (len s) w2 ∧
    next_tid w2 = next_tid w + len s + len s ∧
    prethd_join P (Some p) w2 = Ok r w3 ∧
    joined (since w2 w3) = handles (next_tid w + len s) (N.to_nat (len s)) ∧
    ∀ j, j < len s → Some (next_tid w + j) ∉ joined (since w2 w3).
Proof.
  intros Hp Hts Ht Hlen Hok.
  destruct (prethd_all_run P w p t s ts Hp Hts Ht Hlen) as
    (k & ? & ? & Hrun & _ & _ & _ & _ & _ & Hall).
  rewrite (Hall Hok) in Hrun. clear Hall.
  destruct (prethd_all_slots _ _ _ _ _ _ _ Hp Hts Ht Hlen Hrun)
    as (_ & Htid1 & _ & Hp1 & Ht1).
  rewrite <- Hlen, drop_all, app_nil_r in Ht1.
  assert (Hlen1 : length (handles (next_tid w) (length ts)) = N.to_nat (len s))
    by by rewrite length_handles.
  eexists. destruct (prethd_all_run P _ p t s _ Hp1 Hts Ht1 Hlen1) as
    (k2 & ? & ? & Hrun2 & _ & _ & _ & _ & _ & Hall2).
  rewrite (Hall2 Hok) in Hrun2. clear Hall2.
  destruct (prethd_all_slots _ _ _ _ _ _ _ Hp1 Hts Ht1 Hlen1 Hrun2)
    as (_ & Htid2 & _ & Hp2 & Ht2).
  rewrite drop_ge, app_nil_r in Ht2 by (rewrite length_handles; lia).
  eexists _, _, _. split; [exact Hrun|]. split; [exact Hrun2|].
  split; [by rewrite Htid2, Htid1|].
  split; [apply (prethd_join_run P _ _ _ _ _ Hp2 Hts Ht2); by rewrite length_handles|].
  erewrite since_app; [|reflexivity]. rewrite joined_join_events, Htid1.
  split; [done|]. intros j Hj Hin%elem_of_handles. lia.
Qed.

End Started.

(** Two slots on the platform that starts one thread only. *)
Lemma join_joins_what_all_started_witness :
  let w := after (prethd_new lp64_one_thread 2 0 0) boot in
  let w1 := after (prethd_all lp64_one_thread (Some 1%positive)) w in
  next_tid w1 = 1 ∧
  ∃ r w2,
    prethd_join lp64_one_thread (Some 1%positive) w1 = Ok r w2 ∧
    joined (since w1 w2) = [Some 0; None].
Proof.
  intros w w1.
  apply (join_joins_what_all_started lp64_one_thread w w1 1%positive 2%positive
           (mk_pool None None (Some 2%positive) 2 0 0) [None; None] 1).
  - vm_compute. reflexivity.
  - reflexivity.
  - vm_compute. reflexivity.
  - reflexivity.
  - vm_compute. reflexivity.
Defined.

(** Two threads started twice: handles 0 and 1 are lost, 2 and 3 are
    joined. *)
Lemma second_start_overwrites_handles_witness :
  let w := after (prethd_new lp64 2 0 0) boot in
  ∃ w1 w2 r w3,
    prethd_all lp64 (Some 1%positive) w = Ok 2 w1 ∧
    prethd_all lp64 (Some 1%positive) w1 = Ok 2 w2 ∧
    next_tid w2 = 4 ∧
    prethd_join lp64 (Some 1%positive) w2 = Ok r w3 ∧
    joined (since w2 w3) = [Some 2; Some 3] ∧
    ∀ j, j < 2 → Some (0 + j) ∉ joined (since w2 w3).
Proof.
  intros w.
  apply (second_start_overwrites_handles lp64 w 1%positive 2%positive
           (mk_pool None None (Some 2%positive) 2 0 0) [None; None]).
  - vm_compute. reflexivity.
  - reflexivity.
  - vm_compute. reflexivity.
  - reflexivity.
  - intros tr b j. reflexivity.
Defined.

(** ** Order of construction, short arrays, stale pointers *)

Lemma joined_app evs evs' : joined (evs ++ evs') = joined evs ++ joined evs'.
Proof. apply omap_app. Qed.

Lemma joined_des_array_events k a n : joined (des_array_events k a n) = [].
Proof.
  unfold des_array_events. destruct a as [b|]; [|done]. destruct (0 <? n); [|done].
  rewrite joined_app. simpl. rewrite app_nil_r.
  generalize 0. induction (N.to_nat n) as [|m IH]; intros i; [done|].
  simpl. rewrite <- (IH (i + 1)). by destruct k.
Qed.

Section Order.
Context (P : platform).

(** X7: a successful [prethd_new] asks [malloc] for the pool object, then
    for the mutexes, then for the condition variables, then for the thread
    array, and initialises every element of an array it was given, in index
    order, before it goes on; a refusal of one of the two arrays of
    primitives is logged and the construction goes on.  The blocks it was
    given are distinct, every block there was before is found unchanged,
    and no thread is started. *)
Theorem new_asks_in_order (th mut cond : N) (w w1 : world) (p : block) :
  tidy w →
  prethd_new P th mut cond w = Ok (Some p) w1 →
  ∃ s t,
    heap w1 !! p = Some (Pool s) ∧ threads s = Some t ∧
    since w w1 =
      EvMalloc (N.pos (sizeof_pool P)) (Some p)
      :: init_array_events KMutex (sizeof_mutex P) mut (muts s)
      ++ init_array_events KCond (sizeof_cond P) cond (conds s)
      ++ [EvMalloc (wrap_size (th * N.pos (sizeof_thread P))) (Some t)] ∧
    next_tid w1 = next_tid w ∧
    (∀ x c, heap w !! x = Some c → heap w1 !! x = Some c) ∧
    p ≠ t ∧ muts s ≠ Some p ∧ muts s ≠ Some t ∧ conds s ≠ Some p ∧ conds s ≠ Some t ∧
    (∀ x, muts s = Some x → conds s ≠ Some x).
Proof.
  intros Hw Hnew.
  destruct (prethd_new_built P _ _ _ _ _ _ Hnew)
    as (s & t & fm & fc & Hp & Hts & Hl & Hml & Hcl & -> & Hpt & Hm & Hc).
  exists s, t. cbn [heap next_tid]. split; [by rewrite lookup_insert_eq|].
  split; [done|]. split; [by erewrite since_app|]. split; [done|].
  split.
  { intros x c Hx.
    assert (Hlt : (x < p)%positive).
    { destruct (Pos.ltb_spec x p) as [|Hge]; [done|].
      rewrite Hw in Hx; [done|lia]. }
    rewrite !lookup_insert_ne by lia. rewrite !put_array_lookup.
    destruct (decide (conds s = Some x)) as [Hcx|_].
    { destruct (Hc x Hcx) as (? & _). lia. }
    destruct (decide (muts s = Some x)) as [Hmx|_]; [|done].
    destruct (Hm x Hmx) as (? & _). lia. }
  split; [lia|].
  split; [intros Hx; destruct (Hm _ Hx) as (? & _); lia|].
  split; [intros Hx; destruct (Hm _ Hx) as (? & _); lia|].
  split; [intros Hx; destruct (Hc _ Hx) as (? & _); lia|].
  split; [intros Hx; destruct (Hc _ Hx) as (? & _); lia|].
  intros x Hmx Hcx. by destruct (Hc x Hcx) as (_ & _ & _ & _ & ?).
Qed.

(** X8: the counts of the pool are never compared with what [malloc] gave.
    When the byte size of the thread array does not fit [size_t], the array
    [prethd_new] stores has fewer slots than the count beside it, and with
    every [pthread_create] succeeding [prethd_all] runs off its end, as does
    [prethd_join] whatever the joins answer. *)
Theorem short_thread_array_breaks_start (th mut cond : N) (w w1 : world) (p : block) :
  prethd_new P th mut cond w = Ok (Some p) w1 →
  ¬ fits th (sizeof_thread P) →
  (∀ tr b j, create_rc P tr b j = 0%Z) →
  prethd_size (Some p) w1 = Ok th w1 ∧
  prethd_all P (Some p) w1 = Fault ∧
  prethd_join P (Some p) w1 = Fault.
Proof.
  intros Hnew Hwrap Hok.
  assert (Hshort : wrap_size (th * N.pos (sizeof_thread P)) / N.pos (sizeof_thread P) < th).
  { apply N.Div0.div_lt_upper_bound. unfold fits in Hwrap. unfold wrap_size.
    pose proof (N.mod_upper_bound (th * N.pos (sizeof_thread P)) SIZE_MOD) as Hmod.
    assert (SIZE_MOD ≠ 0) by done. lia. }
  destruct (prethd_new_built P _ _ _ _ _ _ Hnew)
    as (s & t & fm & fc & Hp & Hts & Hl & Hml & Hcl & -> & Hpt & Hm & Hc).
  match goal with |- context [prethd_all P _ ?w] => set (w1 := w) end.
  assert (Hel : (elems (wrap_size (th * N.pos (sizeof_thread P))) (sizeof_thread P)
                 < N.to_nat th)%nat).
  { unfold elems. revert Hshort.
    generalize (wrap_size (th * N.pos (sizeof_thread P)) / N.pos (sizeof_thread P)).
    intros q Hq. lia. }
  assert (Hp1 : heap w1 !! p = Some (Pool s)) by apply lookup_insert_eq.
  assert (Ht1 : heap w1 !! t =
            Some (Threads (replicate (elems (wrap_size (th * N.pos (sizeof_thread P)))
                                            (sizeof_thread P)) None))).
  { unfold w1. cbn [heap]. rewrite lookup_insert_ne by lia. apply lookup_insert_eq. }
  split; [|split].
  - destruct (sizes_of_pool _ _ _ Hp1) as (Hs & _). by rewrite Hs, Hl.
  - unfold prethd_all. rewrite (bind_run _ _ _ _ _ (load_pool_run _ _ _ Hp1)), Hts, Hl.
    eapply all_loop_short; [done|exact Ht1|].
    rewrite length_replicate. simpl. lia.
  - unfold prethd_join. rewrite (bind_run _ _ _ _ _ (load_pool_run _ _ _ Hp1)), Hts, Hl.
    apply bind_fault. eapply join_loop_short; [exact Ht1|].
    rewrite length_replicate. simpl. lia.
Qed.

End Order.

(** Two threads, two mutexes and one condition variable on the sample
    platform. *)
Lemma new_asks_in_order_witness :
  let w1 := after (prethd_new lp64 2 2 1) boot in
  ∃ s t,
    heap w1 !! 1%positive = Some (Pool s) ∧ threads s = Some t ∧
    since boot w1 =
      EvMalloc 48 (Some 1%positive)
      :: init_array_events KMutex 40 2 (muts s)
      ++ init_array_events KCond 48 1 (conds s)
      ++ [EvMalloc (wrap_size (2 * 8)) (Some t)] ∧
    next_tid w1 = 0.
Proof.
  intros w1.
  destruct (new_asks_in_order lp64 2 2 1 boot w1 1%positive)
    as (s & t & Hp & Hts & Hsince & Htid & _).
  - exact tidy_boot.
  - vm_compute. reflexivity.
  - exists s, t. split; [exact Hp|]. split; [exact Hts|]. split; [exact Hsince | exact Htid].
Defined.

(** 2^61 + 1 threads of 8 bytes: the thread array has one slot. *)
Lemma short_thread_array_breaks_start_witness :
  let th := 2305843009213693953 in
  let w1 := after (prethd_new lp64 th 0 0) boot in
  prethd_size (Some 1%positive) w1 = Ok th w1 ∧
  prethd_all lp64 (Some 1%positive) w1 = Fault ∧
  prethd_join lp64 (Some 1%positive) w1 = Fault.
Proof.
  intros th w1.
  apply (short_thread_array_breaks_start lp64 th 0 0 boot w1 1%positive).
  - vm_compute. reflexivity.
  - intros Hfit. vm_compute in Hfit. discriminate.
  - intros tr b j. reflexivity.
Defined.

Section Gone.
Context (P : platform).

(** X9: after [prethd_free] has returned, the pool object is no longer
    live, and every function of the library given the stale pointer
    dereferences it: a second [prethd_free], [prethd_join_free], the three
    size accessors and every operation fault. *)
Theorem released_pool_is_gone (w w1 : world) (p : block) :
  prethd_free (Some p) w = Ok tt w1 →
  heap w1 !! p = None ∧
  prethd_free (Some p) w1 = Fault ∧
  prethd_join_free P (Some p) w1 = Fault ∧
  prethd_size (Some p) w1 = Fault ∧
  prethd_mutex_size (Some p) w1 = Fault ∧
  prethd_cond_size (Some p) w1 = Fault ∧
  ∀ o, run_op P (Some p) o w1 = Fault.
Proof.
  unfold prethd_free at 1.
  intros (s & wa & _ & Hk)%bind_ok.
  apply bind_ok in Hk as ([] & wb & _ & Hk).
  apply bind_ok in Hk as (s2 & wc & _ & Hk).
  apply bind_ok in Hk as ([] & wd & _ & Hk).
  apply bind_ok in Hk as (s3 & we & _ & Hk).
  apply bind_ok in Hk as ([] & wf & _ & Hk).
  unfold free in Hk. destruct (heap wf !! p); [|done]. injection Hk as <-.
  set (w1 := mk_world _ _ _ _).
  assert (Hgone : heap w1 !! p = None) by apply lookup_delete_eq.
  assert (Hload : load_pool p w1 = Fault).
  { unfold load_pool. apply bind_fault. unfold load. by rewrite Hgone. }
  split; [done|].
  split; [by apply bind_fault|].
  split; [unfold prethd_join_free, prethd_join; by do 2 apply bind_fault|].
  split; [by apply bind_fault|]. split; [by apply bind_fault|].
  split; [by apply bind_fault|].
  intros []; simpl; by do 2 apply bind_fault.
Qed.

End Gone.

(** The pool of the sample platform, released once. *)
Lemma released_pool_is_gone_witness :
  let w := after (prethd_new lp64 2 1 1) boot in
  let w1 := after (prethd_free (Some 1%positive)) w in
  heap w1 !! 1%positive = None ∧
  prethd_free (Some 1%positive) w1 = Fault ∧
  prethd_join_free lp64 (Some 1%positive) w1 = Fault ∧
  prethd_size (Some 1%positive) w1 = Fault ∧
  prethd_mutex_size (Some 1%positive) w1 = Fault ∧
  prethd_cond_size (Some 1%positive) w1 = Fault ∧
  ∀ o, run_op lp64 (Some 1%positive) o w1 = Fault.
Proof.
  intros w w1.
  apply (released_pool_is_gone lp64 w w1 1%positive).
  vm_compute. reflexivity.
Defined.

Section WholeRun.
Context (P : platform).

Lemma join_all_zero hs : ∀ tr,
  (∀ tr h, join_rc P tr h = 0%Z) →
  sum_int 0 (join_answers (join_events P tr hs)) = 0%Z.
Proof.
  intros tr Hz. revert tr. unfold sum_int, join_answers.
  induction hs as [|h hs IH]; intros tr; [done|].
  simpl. rewrite Hz. apply IH.
Qed.

(** X10: the whole life of a pool as the README has it.  On a heap with no
    block beyond the allocation mark, for a thread array whose byte size
    fits [size_t] and a platform on which every join succeeds: a pool that
    [prethd_new] returned can be started, [prethd_all] starting [k]
    threads, and [prethd_join_free] then joins the [k] handles followed by
    the slots never started, releases the pool and leaves the heap there
    was before [prethd_new]. *)
Theorem joined_pool_leaves_nothing (th mut cond : N) (w w1 : world) (p : block) :
  tidy w → fits th (sizeof_thread P) →
  (∀ tr h, join_rc P tr h = 0%Z) →
  prethd_new P th mut cond w = Ok (Some p) w1 →
  ∃ k w2 w3,
    prethd_all P (Some p) w1 = Ok k w2 ∧ k ≤ th ∧
    prethd_join_free P (Some p) w2 = Ok tt w3 ∧
    heap w3 = heap w ∧
    joined (since w2 w3) =
      handles (next_tid w) (N.to_nat k) ++ replicate (N.to_nat (th - k)) None.
Proof.
  intros Hw Hfit Hz Hnew.
  destruct (prethd_new_ok _ _ _ _ _ _ _ Hnew) as
    (s & t & _ & Htid & Hp & Hlen & _ & _ & Hts & Ht & _).
  rewrite elems_fits in Ht by done.
  assert (Hl : length (replicate (N.to_nat th) (@None N)) = N.to_nat (len s))
    by by rewrite length_replicate, Hlen.
  destruct (prethd_all_run P w1 p t s _ Hp Hts Ht Hl) as (k & ? & ? & Hall & _).
  destruct (prethd_all_slots P _ _ _ _ _ _ _ Hp Hts Ht Hl Hall)
    as (Hk & _ & _ & Hp2 & Ht2).
  rewrite drop_replicate, Htid in Ht2.
  match type of Hall with _ = Ok _ ?w => set (w2 := w) in * end.
  assert (Hl2 : length (handles (next_tid w) (N.to_nat k) ++
                        replicate (N.to_nat th - N.to_nat k) None) = N.to_nat (len s)).
  { rewrite length_app, length_handles, length_replicate. lia. }
  pose proof (prethd_join_run P _ _ _ _ _ Hp2 Hts Ht2 Hl2) as Hjoin.
  cbv zeta in Hjoin. rewrite join_all_zero in Hjoin by done. cbn [Z.eqb] in Hjoin.
  match type of Hjoin with _ = Ok _ ?w => set (wj := w) in * end.
  assert (Hops : run_ops P (Some p) [OpAll; OpJoin] w1 = Ok tt wj).
  { cbn [run_ops run_op]. unfold mbind, M_bind, mret, M_ret.
    by rewrite Hall, Hjoin. }
  destruct (lifecycle_run P _ _ _ _ _ _ _ _ Hw Hnew Hops)
    as (s' & t' & w3 & Hp' & Hts' & Hfree & Hheap & Htr).
  exists k, w2, w3. split; [done|]. split; [lia|]. split.
  { unfold prethd_join_free. rewrite (bind_run _ _ _ _ _ Hjoin). exact Hfree. }
  split; [done|].
  unfold wj in Htr at 1. cbn [trace] in Htr. rewrite <- app_assoc in Htr.
  rewrite (since_app _ _ _ Htr), !joined_app, joined_join_events.
  change des_muts_events with (des_array_events KMutex).
  change des_conds_events with (des_array_events KCond).
  rewrite !joined_des_array_events, N2Nat.inj_sub. simpl. by rewrite app_nil_r.
Qed.

End WholeRun.

(** Three threads and one mutex, as in the README. *)
Lemma joined_pool_leaves_nothing_witness :
  let w1 := after (prethd_new lp64 3 1 0) boot in
  ∃ k w2 w3,
    prethd_all lp64 (Some 1%positive) w1 = Ok k w2 ∧ k ≤ 3 ∧
    prethd_join_free lp64 (Some 1%positive) w2 = Ok tt w3 ∧
    heap w3 = ∅ ∧
    joined (since w2 w3) = handles 0 (N.to_nat k) ++ replicate (N.to_nat (3 - k)) None.
Proof.
  intros w1.
  apply (joined_pool_leaves_nothing lp64 3 1 0 boot w1 1%positive).
  - exact tidy_boot.
  - reflexivity.
  - intros tr h. reflexivity.
  - vm_compute. reflexivity.
Defined.

(** ** Calls on primitives *)

Section Calls.
Context (P : platform).

(** X11: on a pool whose arrays are fully allocated, an operation given
    indices within range makes exactly one call to the primitive of that
    index, logs it with the answer of the platform, and reports whether that
    answer was zero: a failed call is reported as false and is not tried
    again.  [prethd_wait] hands the condition variable [c] and the mutex [m]
    of the same pool to one [pthread_cond_wait]. *)
Theorem in_range_calls_reach_primitive (w : world) (p : block) (s : pre_threads_t)
    (i c m : N) :
  heap w !! p = Some (Pool s) → pool_full w (Some p) = true →
  (i < mlen s →
     ∃ mb, muts s = Some mb ∧
       prethd_lock P (Some p) i w =
         (let rc := lock_rc P (trace w) mb i in
          Ok (rc =? 0)%Z (log (EvLock mb i rc) w)) ∧
       prethd_unlock P (Some p) i w =
         (let rc := unlock_rc P (trace w) mb i in
          Ok (rc =? 0)%Z (log (EvUnlock mb i rc) w))) ∧
  (i < clen s →
     ∃ cb, conds s = Some cb ∧
       prethd_signal P (Some p) i w =
         (let rc := signal_rc P (trace w) cb i in
          Ok (rc =? 0)%Z (log (EvSignal cb i rc) w)) ∧
       prethd_broad P (Some p) i w =
         (let rc := broadcast_rc P (trace w) cb i in
          Ok (rc =? 0)%Z (log (EvBroadcast cb i rc) w))) ∧
  (c < clen s → m < mlen s →
     ∃ cb mb, conds s = Some cb ∧ muts s = Some mb ∧
       prethd_wait P (Some p) c m w =
         (let rc := wait_rc P (trace w) cb c mb m in
          Ok (rc =? 0)%Z (log (EvWait cb c mb m rc) w))).
Proof.
  intros Hp Hfull. pose proof (load_pool_run _ _ _ Hp) as Hs.
  destruct (pool_full_inv _ _ _ Hp Hfull) as (Hm & Hc & _).
  unfold prethd_lock, prethd_unlock, prethd_wait, prethd_signal, prethd_broad.
  rewrite !(bind_run _ _ _ _ _ Hs).
  split; [|split].
  - intros Hi.
    destruct (prims_at_lookup _ _ _ _ _ Hm Hi) as (mb & ms & Hmb & Hms & _ & Hflag).
    exists mb. split; [done|].
    assert ((mlen s <=? i) = false) as -> by (apply N.leb_gt; lia).
    rewrite Hmb.
    rewrite (bind_run _ _ _ _ _ (pthread_mutex_lock_run P _ _ _ _ Hms Hflag)).
    by rewrite (bind_run _ _ _ _ _ (pthread_mutex_unlock_run P _ _ _ _ Hms Hflag)).
  - intros Hi.
    destruct (prims_at_lookup _ _ _ _ _ Hc Hi) as (cb & cs & Hcb & Hcs & _ & Hflag).
    exists cb. split; [done|].
    assert ((clen s <=? i) = false) as -> by (apply N.leb_gt; lia).
    rewrite Hcb.
    rewrite (bind_run _ _ _ _ _ (pthread_cond_signal_run P _ _ _ _ Hcs Hflag)).
    by rewrite (bind_run _ _ _ _ _ (pthread_cond_broadcast_run P _ _ _ _ Hcs Hflag)).
  - intros Hci Hmi.
    destruct (prims_at_lookup _ _ _ _ _ Hm Hmi) as (mb & ms & Hmb & Hms & _ & Hmf).
    destruct (prims_at_lookup _ _ _ _ _ Hc Hci) as (cb & cs & Hcb & Hcs & _ & Hcf).
    exists cb, mb. split; [done|]. split; [done|].
    assert ((clen s <=? c) = false) as -> by (apply N.leb_gt; lia).
    assert ((mlen s <=? m) = false) as -> by (apply N.leb_gt; lia).
    rewrite Hcb, Hmb. cbn [orb].
    by rewrite (bind_run _ _ _ _ _ (pthread_cond_wait_run P _ _ _ _ _ _ _ Hcs Hcf Hms Hmf)).
Qed.

(** X12: the bounds checks compare an index with the count asked for, not
    with what was allocated.  On a pool [prethd_new] returned with a null
    mutex array, the count of mutexes is still the one asked for, and every
    lock, unlock or wait with indices within range dereferences the null
    array. *)
Theorem refused_array_leaves_unusable_pool (th mut cond : N) (w w1 : world)
    (p : block) (s : pre_threads_t) :
  prethd_new P th mut cond w = Ok (Some p) w1 →
  heap w1 !! p = Some (Pool s) → muts s = NULL →
  prethd_mutex_size (Some p) w1 = Ok mut w1 ∧
  ∀ i, i < mut →
    prethd_lock P (Some p) i w1 = Fault ∧
    prethd_unlock P (Some p) i w1 = Fault ∧
    ∀ c, c < cond → prethd_wait P (Some p) c i w1 = Fault.
Proof.
  intros Hnew Hp Hnull.
  destruct (prethd_new_ok _ _ _ _ _ _ _ Hnew) as
    (s' & t & _ & _ & Hp' & _ & Hml & Hcl & _).
  rewrite Hp in Hp'. injection Hp' as <-.
  pose proof (load_pool_run _ _ _ Hp) as Hs.
  split.
  { destruct (sizes_of_pool _ _ _ Hp) as (_ & Hsz & _). by rewrite Hsz, Hml. }
  intros i Hi.
  unfold prethd_lock, prethd_unlock, prethd_wait.
  rewrite !(bind_run _ _ _ _ _ Hs), Hml, Hnull.
  assert (Hin : (mut <=? i) = false) by (apply N.leb_gt; lia). rewrite Hin.
  split; [done|]. split; [done|]. intros c Hc.
  rewrite (bind_run _ _ _ _ _ Hs), Hml, Hcl, Hnull, Hin.
  assert ((cond <=? c) = false) as -> by (apply N.leb_gt; lia).
  cbn [orb]. apply bind_fault. unfold pthread_cond_wait.
  unfold mbind at 1, M_bind at 1.
  by destruct (load_prim KCond (conds s) c w1) as [[cb cf] w'|].
Qed.

(** X13: a join does not clear the slots.  After a [prethd_join] on a pool
    whose thread array holds its slots, a second [prethd_join] passes the
    very same handles to [pthread_join], in the same order. *)
Theorem join_again_joins_same_handles (w : world) (p t : block) (s : pre_threads_t)
    (ts : list (option N)) :
  heap w !! p = Some (Pool s) → threads s = Some t →
  heap w !! t = Some (Threads ts) → length ts = N.to_nat (len s) →
  ∃ r1 w1 r2 w2,
    prethd_join P (Some p) w = Ok r1 w1 ∧
    prethd_join P (Some p) w1 = Ok r2 w2 ∧
    joined (since w w1) = ts ∧ joined (since w1 w2) = ts.
Proof.
  intros Hp Hts Ht Hlen.
  pose proof (prethd_join_run P _ _ _ _ _ Hp Hts Ht Hlen) as H1. cbv zeta in H1.
  eexists _, _. 
  match type of H1 with _ = Ok _ ?w' =>
    pose proof (prethd_join_run P w' _ _ _ _ Hp Hts Ht Hlen) as H2 end.
  cbv zeta in H2. eexists _, _. split; [exact H1|]. split; [exact H2|].
  split; (erewrite since_app; [|reflexivity]); apply joined_join_events.
Qed.

End Calls.

(** Mutex 1 and condition variable 0 of the pool of two threads, two
    mutexes and one condition variable. *)
Lemma in_range_calls_reach_primitive_witness :
  let w := after (prethd_new lp64 2 2 1) boot in
  prethd_lock lp64 (Some 1%positive) 1 w = Ok true (log (EvLock 2 1 0) w) ∧
  prethd_unlock lp64 (Some 1%positive) 1 w = Ok true (log (EvUnlock 2 1 0) w) ∧
  prethd_wait lp64 (Some 1%positive) 0 1 w = Ok true (log (EvWait 3 0 2 1 0) w).
Proof.
  intros w.
  destruct (in_range_calls_reach_primitive lp64 w 1%positive
              (mk_pool (Some 2%positive) (Some 3%positive) (Some 4%positive) 2 2 1) 1 0 1)
    as (Hm & _ & Hw); [vm_compute; reflexivity | vm_compute; reflexivity |].
  destruct Hm as (mb & Hmb & Hl & Hu); [reflexivity|].
  destruct Hw as (cb & mb' & Hcb & Hmb' & Hwait); [reflexivity | reflexivity |].
  injection Hmb as <-. injection Hcb as <-. injection Hmb' as <-.
  split; [exact Hl|]. split; [exact Hu | exact Hwait].
Defined.

(** One thread, one mutex and one condition variable on the platform that
    has no memory for the mutex array. *)
Lemma refused_array_leaves_unusable_pool_witness :
  let w1 := after (prethd_new lp64_no_mutex 1 1 1) boot in
  prethd_mutex_size (Some 1%positive) w1 = Ok 1 w1 ∧
  ∀ i, i < 1 →
    prethd_lock lp64_no_mutex (Some 1%positive) i w1 = Fault ∧
    prethd_unlock lp64_no_mutex (Some 1%positive) i w1 = Fault ∧
    ∀ c, c < 1 → prethd_wait lp64_no_mutex (Some 1%positive) c i w1 = Fault.
Proof.
  intros w1.
  apply (refused_array_leaves_unusable_pool lp64_no_mutex 1 1 1 boot w1 1%positive
           (mk_pool None (Some 2%positive) (Some 3%positive) 1 1 1)).
  - vm_compute. reflexivity.
  - vm_compute. reflexivity.
  - reflexivity.
Defined.

(** Two threads, started, joined twice. *)
Lemma join_again_joins_same_handles_witness :
  let w := after (prethd_all lp64 (Some 1%positive))
                 (after (prethd_new lp64 2 0 0) boot) in
  ∃ r1 w1 r2 w2,
    prethd_join lp64 (Some 1%positive) w = Ok r1 w1 ∧
    prethd_join lp64 (Some 1%positive) w1 = Ok r2 w2 ∧
    joined (since w w1) = [Some 0; Some 1] ∧ joined (since w1 w2) = [Some 0; Some 1].
Proof.
  intros w.
  apply (join_again_joins_same_handles lp64 w 1%positive 2%positive
           (mk_pool None None (Some 2%positive) 2 0 0) [Some 0; Some 1]).
  - vm_compute. reflexivity.
  - reflexivity.
  - vm_compute. reflexivity.
  - reflexivity.
Defined.

(** ** Sample runs *)

(** The program of the README: fifty threads and one mutex, all threads
    started, then joined and freed.  Nothing stays allocated. *)
Example readme_run :
  let w1 := after (prethd_new lp64 50 1 0) boot in
  let w2 := after (prethd_all lp64 (Some 1%positive)) w1 in
  let w3 := after (prethd_join_free lp64 (Some 1%positive)) w2 in
  prethd_new lp64 50 1 0 boot = Ok (Some 1%positive) w1 ∧
  prethd_all lp64 (Some 1%positive) w1 = Ok 50 w2 ∧
  prethd_join_free lp64 (Some 1%positive) w2 = Ok tt w3 ∧
  heap w3 = ∅ ∧
  length (joined (since w2 w3)) = 50%nat.
Proof. vm_compute. repeat split. Qed.

(** When it is the thread array that cannot be allocated, [prethd_new] does
    roll back: the mutex is destroyed, its array and the pool object are
    freed, and the null pointer is returned. *)
Example thread_array_failure_rolls_back :
  let w1 := after (prethd_new lp64_no_threads 1 1 0) boot in
  prethd_new lp64_no_threads 1 1 0 boot = Ok NULL w1 ∧
  heap w1 = ∅ ∧
  trace w1 = [EvMalloc 48 (Some 1%positive); EvMalloc 40 (Some 2%positive);
              EvMutexInit 2 0; EvMalloc 8 NULL;
              EvMutexDestroy 2 0; EvFree 2; EvFree 1].
Proof. vm_compute. repeat split. Qed.

(** A partial start followed by a join: the second slot, never started, is
    joined all the same. *)
Example join_after_partial_start :
  let w := after (prethd_new lp64_one_thread 2 0 0) boot in
  let w1 := after (prethd_all lp64_one_thread (Some 1%positive)) w in
  let w2 := after (prethd_join lp64_one_thread (Some 1%positive)) w1 in
  prethd_all lp64_one_thread (Some 1%positive) w = Ok 1 w1 ∧
  since w w1 = [EvCreate 2 0 0; EvCreate 2 1 11] ∧
  prethd_join lp64_one_thread (Some 1%positive) w1 = Ok false w2 ∧
  since w1 w2 = [EvJoin (Some 0) 0; EvJoin None 3].
Proof. vm_compute. repeat split. Qed.

(** Use after free is a fault, not a silent success. *)
Example use_after_free_faults :
  let w1 := after (prethd_new lp64 2 1 1) boot in
  let w2 := after (prethd_free (Some 1%positive)) w1 in
  prethd_free (Some 1%positive) w1 = Ok tt w2 ∧
  heap w2 = ∅ ∧
  prethd_size (Some 1%positive) w2 = Fault ∧
  prethd_free (Some 1%positive) w2 = Fault.
Proof. vm_compute. repeat split. Qed.

(** Counts whose arrays are too large for [size_t].  With 2^61 + 1 threads
    the byte size of the thread array wraps to 8: malloc is asked for one
    slot and the pool counts 2^61 + 1 of them. *)
Example thread_array_size_wraps :
  let th := 2305843009213693953 in
  let w1 := after (prethd_new lp64 th 0 0) boot in
  wrap_size (th * N.pos (sizeof_thread lp64)) = 8 ∧
  prethd_new lp64 th 0 0 boot = Ok (Some 1%positive) w1 ∧
  prethd_size (Some 1%positive) w1 = Ok th w1 ∧
  heap w1 !! 2%positive = Some (Threads [None]) ∧
  pool_full w1 (Some 1%positive) = false.
Proof. vm_compute. repeat split. Qed.

(** With 2^62 + 1 mutexes the byte size of the mutex array wraps to 40:
    malloc is asked for one mutex, and the initialisation loop runs past
    it. *)
Example mutex_array_size_wraps :
  wrap_size (4611686018427387905 * N.pos (sizeof_mutex lp64)) = 40 ∧
  init_muts lp64 4611686018427387905 boot = Fault.
Proof. split; [reflexivity|]. apply init_muts_short; [done|reflexivity]. Qed.
